(** * Minimax-regret portfolio selection: a model of [support.py]

    The development embeds the four functions of [support.py]
    ([calculate_gamma], [calculate_effective_returns],
    [calculate_optimal_scenario_returns] and
    [solve_minimax_regret_optimization]) and proves properties of them.

    Modelling choices.
    - Numbers are exact rationals ([Q]); rounding of machine floats is not
      modelled.  The sentinel [-math.inf] is a separate constructor.
    - An initiative is a Python dict.  The dicts live in an object store and a
      list of initiatives is a list of references into it, so that in-place
      updates are visible through every alias.
    - Dicts keyed by scenario name are finite maps with string keys; a lookup
      of a missing key raises [KeyError].
    - The integer-programming back end (PuLP driving CBC) is an oracle that
      receives the problem built by the code and either raises or reports a
      status with a value per variable.  Every call is logged in the world.
      After a solve a variable has a value only if it occurs in the problem
      (PuLP drops a term with coefficient zero and leaves [varValue = None] on
      a variable that occurs nowhere).  The value of an objective that has no
      term is [None]: PuLP solves such a problem with a placeholder variable
      that is never assigned.
    - [print] statements write to standard output only and are omitted, except
      that the formatting [{value:.2f}] of line 46 fails on [None]. *)

From Stdlib Require Import QArith Lqa String List Lia.
From stdpp Require Import gmap strings list fin_maps.

Open Scope string_scope.
Open Scope list_scope.


(** * Part I: the embedding *)

(** ** Exceptions and outcomes *)

Inductive exn :=
| ValueError (msg : string)
| TypeError (msg : string)
| KeyError (key : string).

Inductive outcome (A : Type) :=
| Raise (e : exn)
| Return (a : A).
Arguments Raise {A} e.
Arguments Return {A} a.

Definition raises {A} (o : outcome A) : Prop := ∃ e, o = Raise e.
Definition returns {A} (o : outcome A) : Prop := ∃ a, o = Return a.

(** Python's chained comparison [lo <= x <= hi]. *)
Definition between (lo x hi : Q) : bool := Qle_bool lo x && Qle_bool x hi.

(** ** 1. Helper functions

    [calculate_gamma], lines 6-9. *)
Definition calculate_gamma (confidence_score : Q) : outcome Q :=
  if negb (between 0 confidence_score 1)
  then Raise (ValueError "Confidence score must be between 0 and 1.")
  else Return (1 - confidence_score)%Q.

(** Python float with the sentinel [-math.inf]. *)
Inductive number :=
| neg_inf
| finite (q : Q).

Definition is_neg_inf (v : number) : bool :=
  match v with neg_inf => true | finite _ => false end.

Definition number_sub (a : number) (b : Q) : number :=
  match a with neg_inf => neg_inf | finite q => finite (q - b)%Q end.

(** An initiative dict.  The six raw keys are always present; [gamma] and
    [effective_returns] are absent until [calculate_effective_returns] sets
    them. *)
Record initiative := {
  ini_id : string;
  cost : Q;
  confidence : Q;
  R_best : Q;
  R_med : Q;
  R_worst : Q;
  gamma : option Q;
  effective_returns : option (gmap string Q)
}.

(** References to initiative dicts. *)
Definition loc := nat.

(** *** The PuLP interface

    The variables the code creates: [LpVariable.dicts("Select", ids, 0, 1,
    LpBinary)], one binary variable per id, and [LpVariable("Max_Regret",
    lowBound=0)]. *)
Inductive LpVariable :=
| Select (key : string)
| Max_Regret.

Global Instance LpVariable_eq_dec : EqDecision LpVariable.
Proof. solve_decision. Defined.

Inductive LpSense := LpMaximize | LpMinimize.
Inductive LpConstraintSense := LpConstraintLE | LpConstraintGE.

(** A constraint [sum of terms <= rhs] or [sum of terms >= rhs].  The
    right-hand side may be the sentinel, as a Python float may. *)
Record LpConstraint := {
  c_terms : list (LpVariable * Q);
  c_sense : LpConstraintSense;
  c_rhs : number
}.

Record LpProblem := {
  name : string;
  sense : LpSense;
  objective : list (LpVariable * Q);
  constraints : list LpConstraint
}.

(** [LpProblem.variables()]: the variables of the objective and of the
    constraints. *)
Definition variables (p : LpProblem) : list LpVariable :=
  ((objective p).*1 ++ flat_map (λ c, (c_terms c).*1) (constraints p))%list.

(** The status constants of PuLP and the table [lp.LpStatus]. *)
Inductive LpStatusCode :=
| LpStatusNotSolved | LpStatusOptimal | LpStatusInfeasible
| LpStatusUnbounded | LpStatusUndefined.

Global Instance LpStatusCode_eq_dec : EqDecision LpStatusCode.
Proof. solve_decision. Defined.

Definition LpStatus (c : LpStatusCode) : string :=
  match c with
  | LpStatusNotSolved => "Not Solved"
  | LpStatusOptimal => "Optimal"
  | LpStatusInfeasible => "Infeasible"
  | LpStatusUnbounded => "Unbounded"
  | LpStatusUndefined => "Undefined"
  end.

(** What the back end does with a problem: it raises, or it reports a status
    and a value per variable.  It is given the calls made before. *)
Inductive solver_reply :=
| SolverError (msg : string)
| SolverDone (st : LpStatusCode) (values : LpVariable → Q).

Definition solver := list LpProblem → LpProblem → solver_reply.

(** ** The world: the object store and the log of calls to the back end *)
Record world := {
  objects : loc → initiative;
  solver_calls : list LpProblem
}.

(** Computations: state passing with exceptions; the state survives a
    [Raise]. *)
Definition M (A : Type) : Type := world → outcome A * world.

Global Instance M_ret : MRet M := λ A a w, (Return a, w).
Global Instance M_bind : MBind M := λ A B f m w,
  match m w with
  | (Return a, w') => f a w'
  | (Raise e, w') => (Raise e, w')
  end.

Definition lift {A} (o : outcome A) : M A := λ w, (o, w).
Definition read (l : loc) : M initiative := λ w, (Return (objects w l), w).
Definition write (l : loc) (i : initiative) : M unit := λ w,
  (Return tt, {| objects := λ l', if decide (l' = l) then i else objects w l';
                 solver_calls := solver_calls w |}).

Global Instance outcome_ret : MRet outcome := λ A a, Return a.
Global Instance outcome_bind : MBind outcome := λ A B f o,
  match o with
  | Return a => f a
  | Raise e => Raise e
  end.

Definition log_call (p : LpProblem) : M unit := λ w,
  (Return tt, {| objects := objects w; solver_calls := (solver_calls w ++ [p])%list |}).
Definition calls_so_far : M (list LpProblem) := λ w, (Return (solver_calls w), w).

(** [scenarios = ['best', 'med', 'worst']] *)
Definition scenarios : list string := ["best"; "med"; "worst"].

(** [d[k]] *)
Definition getitem {V} (d : gmap string V) (k : string) : outcome V :=
  match d !! k with
  | Some v => Return v
  | None => Raise (KeyError k)
  end.

(** [initiative['gamma'] = g] and [initiative['effective_returns'] = er] on
    the dict itself. *)
Definition set_gamma (g : Q) (i : initiative) : initiative :=
  {| ini_id := ini_id i; cost := cost i; confidence := confidence i;
     R_best := R_best i; R_med := R_med i; R_worst := R_worst i;
     gamma := Some g; effective_returns := effective_returns i |}.

Definition set_effective_returns (er : gmap string Q) (i : initiative) : initiative :=
  {| ini_id := ini_id i; cost := cost i; confidence := confidence i;
     R_best := R_best i; R_med := R_med i; R_worst := R_worst i;
     gamma := gamma i; effective_returns := Some er |}.

(** In-place update of the dict behind a reference. *)
Definition update (l : loc) (f : initiative → initiative) : M unit :=
  i ← read l; write l (f i).

Fixpoint for_each {A} (xs : list A) (body : A → M unit) : M unit :=
  match xs with
  | [] => mret tt
  | x :: rest => body x;; for_each rest body
  end.

(** The inner loop of [calculate_effective_returns], lines 23-25. *)
Fixpoint blend_scenarios (initiative : loc) (gamma_i : Q)
    (R_base_map : gmap string Q) (names : list string)
    (effective_returns : gmap string Q) : M (gmap string Q) :=
  match names with
  | [] => mret effective_returns
  | scenario_name :: rest =>
      R_ij_base ← lift (getitem R_base_map scenario_name);
      i ← read initiative;
      blend_scenarios initiative gamma_i R_base_map rest
        (<[scenario_name := ((1 - gamma_i) * R_ij_base + gamma_i * R_worst i)%Q]>
           effective_returns)
  end.

(** The body of the outer loop, lines 14-26. *)
Definition process_initiative (confidence_penalty_func : Q → outcome Q)
    (initiative : loc) : M unit :=
  i ← read initiative;
  let c_i := confidence i in
  gamma_i ← lift (confidence_penalty_func c_i);
  update initiative (set_gamma gamma_i);;
  i ← read initiative;
  let R_base_map : gmap string Q :=
    <["worst" := R_worst i]> (<["med" := R_med i]> (<["best" := R_best i]> ∅)) in
  effective_returns ← blend_scenarios initiative gamma_i R_base_map scenarios ∅;
  update initiative (set_effective_returns effective_returns).

(** [calculate_effective_returns], lines 11-27. *)
Definition calculate_effective_returns (initiatives : list loc)
    (confidence_penalty_func : Q → outcome Q) : M (list loc) :=
  for_each initiatives (process_initiative confidence_penalty_func);;
  mret initiatives.

(** [var * coefficient]: PuLP drops a term whose coefficient is zero. *)
Definition times (v : LpVariable) (c : Q) : list (LpVariable * Q) :=
  if Qeq_bool c 0 then [] else [(v, c)].

(** [i['effective_returns'][scenario_name]] *)
Definition effective_return (scenario_name : string) (i : initiative) : outcome Q :=
  match effective_returns i with
  | None => Raise (KeyError "effective_returns")
  | Some er => getitem er scenario_name
  end.

(** [lp.lpSum(var[i['id']] * coefficient(i) for i in initiatives)] *)
Fixpoint lpSum_select (coefficient : initiative → outcome Q)
    (initiatives : list loc) : M (list (LpVariable * Q)) :=
  match initiatives with
  | [] => mret []
  | l :: rest =>
      i ← read l;
      c ← lift (coefficient i);
      ts ← lpSum_select coefficient rest;
      mret (times (Select (ini_id i)) c ++ ts)%list
  end.

(** The state of a problem after [solve]: [prob.status] and the [varValue] of
    each variable. *)
Record solution := {
  prob_status : LpStatusCode;
  varValue : LpVariable → option Q
}.

(** After a solve PuLP assigns a value to the variables of the problem, those
    occurring in its objective or constraints; any other variable keeps
    [varValue = None]. *)
Definition varValue_of (p : LpProblem) (values : LpVariable → Q)
    (v : LpVariable) : option Q :=
  if decide (v ∈ variables p) then Some (values v) else None.

(** [prob.solve(lp.PULP_CBC_CMD(msg=False))] inside its [try]: [inl] is the
    [except] branch. *)
Definition solve (cbc : solver) (p : LpProblem) : M (string + solution) :=
  history ← calls_so_far;
  log_call p;;
  match cbc history p with
  | SolverError msg => mret (inl msg)
  | SolverDone st values =>
      mret (inr {| prob_status := st; varValue := varValue_of p values |})
  end.

(** [lp.value(expression)]: [None] as soon as a variable has no value. *)
Fixpoint value_from (varValue : LpVariable → option Q)
    (ts : list (LpVariable * Q)) (s : Q) : option Q :=
  match ts with
  | [] => Some s
  | (v, x) :: rest =>
      match varValue v with
      | None => None
      | Some a => value_from varValue rest (s + a * x)%Q
      end
  end.

Definition value (varValue : LpVariable → option Q)
    (ts : list (LpVariable * Q)) : option Q := value_from varValue ts 0.

(** [lp.value(prob.objective)] after a solve.  When the objective has no
    term, PuLP adds its own variable [__dummy] to it for the solve and leaves
    it in the expression afterwards; that variable is never assigned, so the
    value of the objective is [None]. *)
Definition objective_value (varValue : LpVariable → option Q)
    (obj : list (LpVariable * Q)) : option Q :=
  match obj with
  | [] => None
  | _ :: _ => value varValue obj
  end.

(** The problem of lines 34-37. *)
Definition scenario_problem (scenario_name : string)
    (obj budget_lhs : list (LpVariable * Q)) (total_budget : Q) : LpProblem :=
  {| name := "Optimal_Return_Scenario_" +:+ scenario_name;
     sense := LpMaximize;
     objective := obj;
     constraints := [ {| c_terms := budget_lhs; c_sense := LpConstraintLE;
                         c_rhs := finite total_budget |} ] |}.

(** The loop of [calculate_optimal_scenario_returns], lines 33-49. *)
Fixpoint scenario_loop (cbc : solver) (initiatives : list loc) (total_budget : Q)
    (names : list string) (V_j_star : gmap string number) : M (gmap string number) :=
  match names with
  | [] => mret V_j_star
  | scenario_name :: rest =>
      obj ← lpSum_select (effective_return scenario_name) initiatives;
      budget_lhs ← lpSum_select (λ i, Return (cost i)) initiatives;
      r ← solve cbc (scenario_problem scenario_name obj budget_lhs total_budget);
      match r with
      | inl e =>
          scenario_loop cbc initiatives total_budget rest
            (<[scenario_name := neg_inf]> V_j_star)
      | inr sol =>
          if bool_decide (LpStatus (prob_status sol) = "Optimal") then
            match objective_value (varValue sol) obj with
            | Some v =>
                scenario_loop cbc initiatives total_budget rest
                  (<[scenario_name := finite v]> V_j_star)
            | None =>
                lift (Raise (TypeError
                  "unsupported format string passed to NoneType.__format__"))
            end
          else
            scenario_loop cbc initiatives total_budget rest
              (<[scenario_name := neg_inf]> V_j_star)
      end
  end.

(** [calculate_optimal_scenario_returns], lines 29-50. *)
Definition calculate_optimal_scenario_returns (cbc : solver)
    (initiatives : list loc) (total_budget : Q) : M (gmap string number) :=
  scenario_loop cbc initiatives total_budget scenarios ∅.

(** ** 2. Main optimization function *)

(** The dict the main function returns. *)
Record Result := {
  status : string;
  min_max_regret : option Q;
  selected_initiatives : list string;
  total_cost : Q;
  total_actual_returns : gmap string Q;
  v_j_star : gmap string number;
  regrets_for_selected_portfolio : gmap string number
}.

(** [{'best': 0, 'med': 0, 'worst': 0}], also [{s: 0 for s in scenarios}]. *)
Definition zero_returns : gmap string Q :=
  <["worst" := 0%Q]> (<["med" := 0%Q]> (<["best" := 0%Q]> ∅)).

(** The dict returned by the three early exits. *)
Definition empty_result (st : string) (V_j_star : gmap string number) : Result :=
  {| status := st;
     min_max_regret := None;
     selected_initiatives := [];
     total_cost := 0;
     total_actual_returns := zero_returns;
     v_j_star := V_j_star;
     regrets_for_selected_portfolio := ∅ |}.

(** The list comprehension of line 61. *)
Fixpoint filter_eligible (min_confidence_threshold : Q)
    (initiatives_data : list loc) : M (list loc) :=
  match initiatives_data with
  | [] => mret []
  | l :: rest =>
      i ← read l;
      keep ← filter_eligible min_confidence_threshold rest;
      mret (if Qle_bool min_confidence_threshold (confidence i)
            then l :: keep else keep)
  end.

(** [any(val == -math.inf for val in V_j_star.values())] *)
Definition any_neg_inf (V_j_star : gmap string number) : bool :=
  existsb is_neg_inf (map_to_list V_j_star).*2.

(** The constraints of lines 94-96, [theta >= V_j_star[s] - lpSum(...)], in
    the form PuLP stores them: [theta + lpSum(...) >= V_j_star[s]]. *)
Fixpoint regret_constraints (processed_initiatives : list loc)
    (V_j_star : gmap string number) (names : list string) : M (list LpConstraint) :=
  match names with
  | [] => mret []
  | scenario_name :: rest =>
      v ← lift (getitem V_j_star scenario_name);
      ts ← lpSum_select (effective_return scenario_name) processed_initiatives;
      cs ← regret_constraints processed_initiatives V_j_star rest;
      mret ({| c_terms := (Max_Regret, 1%Q) :: ts; c_sense := LpConstraintGE;
               c_rhs := v |} :: cs)
  end.

(** The problem of lines 88-99. *)
Definition minimax_problem (regret_cs : list LpConstraint)
    (budget_lhs floor_lhs : list (LpVariable * Q))
    (total_budget min_portfolio_worst_return : Q) : LpProblem :=
  {| name := "Minimax_Regret_Investment_Portfolio";
     sense := LpMinimize;
     objective := [(Max_Regret, 1%Q)];
     constraints :=
       (regret_cs ++
        [ {| c_terms := budget_lhs; c_sense := LpConstraintLE;
             c_rhs := finite total_budget |};
          {| c_terms := floor_lhs; c_sense := LpConstraintGE;
             c_rhs := finite min_portfolio_worst_return |} ])%list |}.

(** [a > b] *)
Definition Qgt_bool (a b : Q) : bool := negb (Qle_bool a b).

(** The loop of lines 129-130. *)
Fixpoint add_returns (i : loc) (names : list string)
    (total_actual_returns : gmap string Q) : M (gmap string Q) :=
  match names with
  | [] => mret total_actual_returns
  | scenario_name :: rest =>
      old ← lift (getitem total_actual_returns scenario_name);
      r ← (ini ← read i; lift (effective_return scenario_name ini));
      add_returns i rest (<[scenario_name := (old + r)%Q]> total_actual_returns)
  end.

(** The accumulators [selected_initiatives], [total_cost] and
    [total_actual_returns]. *)
Record tally := {
  t_selected : list string;
  t_cost : Q;
  t_returns : gmap string Q
}.

(** The loop of lines 125-130. *)
Fixpoint select_loop (x : LpVariable → option Q)
    (processed_initiatives : list loc) (acc : tally) : M tally :=
  match processed_initiatives with
  | [] => mret acc
  | i :: rest =>
      ini ← read i;
      match x (Select (ini_id ini)) with
      | None =>
          lift (Raise (TypeError
            "'>' not supported between instances of 'NoneType' and 'float'"))
      | Some v =>
          if Qgt_bool v (1 # 2) then
            returns ← add_returns i scenarios (t_returns acc);
            select_loop x rest
              {| t_selected := (t_selected acc ++ [ini_id ini])%list;
                 t_cost := (t_cost acc + cost ini)%Q;
                 t_returns := returns |}
          else select_loop x rest acc
      end
  end.

(** The loop of lines 132-133. *)
Fixpoint regret_loop (V_j_star : gmap string number)
    (total_actual_returns : gmap string Q) (names : list string)
    (regrets : gmap string number) : outcome (gmap string number) :=
  match names with
  | [] => Return regrets
  | scenario_name :: rest =>
      v ← getitem V_j_star scenario_name;
      t ← getitem total_actual_returns scenario_name;
      regret_loop V_j_star total_actual_returns rest
        (<[scenario_name := number_sub v t]> regrets)
  end.

Definition zero_regrets : gmap string number :=
  <["worst" := finite 0]> (<["med" := finite 0]> (<["best" := finite 0]> ∅)).

(** [solve_minimax_regret_optimization], lines 54-141. *)
Definition solve_minimax_regret_optimization (cbc : solver)
    (initiatives_data : list loc) (total_budget min_confidence_threshold
    min_portfolio_worst_return : Q)
    (confidence_penalty_func : Q → outcome Q) : M Result :=
  eligible_initiatives ← filter_eligible min_confidence_threshold initiatives_data;
  match eligible_initiatives with
  | [] => mret (empty_result "No Eligible Initiatives" ∅)
  | _ =>
    processed_initiatives ←
      calculate_effective_returns eligible_initiatives confidence_penalty_func;
    V_j_star ←
      calculate_optimal_scenario_returns cbc processed_initiatives total_budget;
    if any_neg_inf V_j_star then
      mret (empty_result "Error in V_j_star calculation" V_j_star)
    else
      regret_cs ← regret_constraints processed_initiatives V_j_star scenarios;
      budget_lhs ← lpSum_select (λ i, Return (cost i)) processed_initiatives;
      floor_lhs ← lpSum_select (λ i, Return (R_worst i)) processed_initiatives;
      let prob := minimax_problem regret_cs budget_lhs floor_lhs
                    total_budget min_portfolio_worst_return in
      r ← solve cbc prob;
      match r with
      | inl e => mret (empty_result ("Error solving main problem: " +:+ e) V_j_star)
      | inr sol =>
          let optimal := bool_decide (prob_status sol = LpStatusOptimal) in
          acc ← (if optimal
                 then select_loop (varValue sol) processed_initiatives
                        {| t_selected := []; t_cost := 0; t_returns := zero_returns |}
                 else mret {| t_selected := []; t_cost := 0;
                              t_returns := zero_returns |});
          regrets ← (if optimal
                     then lift (regret_loop V_j_star (t_returns acc) scenarios
                                  zero_regrets)
                     else mret zero_regrets);
          mret {| status := LpStatus (prob_status sol);
                  min_max_regret :=
                    if optimal then objective_value (varValue sol) (objective prob)
                    else None;
                  selected_initiatives := t_selected acc;
                  total_cost := t_cost acc;
                  total_actual_returns := t_returns acc;
                  v_j_star := V_j_star;
                  regrets_for_selected_portfolio := regrets |}
      end
  end.


(** ** Specification vocabulary *)

(** Frames of a computation. *)
Definition preserves_world {A} (m : M A) : Prop :=
  ∀ w, (m w).2 = w.
Definition keeps_objects {A} (m : M A) : Prop :=
  ∀ w, objects (m w).2 = objects w.


(** The contract of a penalty model: it returns on every confidence in [0,1]. *)
Definition penalty_contract (pen : Q → outcome Q) : Prop :=
  ∀ c, (0 <= c)%Q → (c <= 1)%Q → returns (pen c).

(** The blended return of one scenario. *)
Definition blend (g raw worst : Q) : Q := ((1 - g) * raw + g * worst)%Q.

Definition blended (g : Q) (i : initiative) : gmap string Q :=
  <["worst" := blend g (R_worst i) (R_worst i)]>
    (<["med" := blend g (R_med i) (R_worst i)]>
       (<["best" := blend g (R_best i) (R_worst i)]> ∅)).

(** An initiative after the effective-return pass with penalty weight [g]. *)
Definition augmented (g : Q) (i : initiative) : initiative :=
  set_effective_returns (blended g i) (set_gamma g i).

Definition augment (pen : Q → outcome Q) (i : initiative) : initiative :=
  match pen (confidence i) with
  | Return g => augmented g i
  | Raise _ => i
  end.

Definition eligible (thr : Q) (h : loc → initiative) (data : list loc) : list loc :=
  List.filter (λ l, Qle_bool thr (confidence (h l))) data.

(** The value a coefficient expression returns (0 where it raises). *)
Definition or_zero (coefficient : initiative → outcome Q) (i : initiative) : Q :=
  match coefficient i with
  | Return r => r
  | Raise _ => 0%Q
  end.

(** Effective return of a processed initiative. *)
Definition returns_of (s : string) : initiative → Q :=
  or_zero (effective_return s).


Global Instance Qlt_decision : RelDecision Qlt.
Proof.
  intros x y. destruct (Qlt_le_dec x y) as [H|H]; [left; exact H|right].
  apply Qle_not_lt. exact H.
Defined.

Global Instance Qle_decision : RelDecision Qle.
Proof.
  intros x y. destruct (Qlt_le_dec y x) as [H|H]; [right|left; exact H].
  apply Qlt_not_le. exact H.
Defined.

(** The test [x[i['id']].varValue > 0.5] on an assigned variable. *)
Definition chosen (x : LpVariable → option Q) (i : initiative) : bool :=
  match x (Select (ini_id i)) with
  | Some v => Qgt_bool v (1 # 2)
  | None => false
  end.

(** What [solve] reports for a reply of the back end. *)
Definition reported (p : LpProblem) (r : solver_reply) : string + solution :=
  match r with
  | SolverError msg => inl msg
  | SolverDone st values =>
      inr {| prob_status := st; varValue := varValue_of p values |}
  end.

(** The entry of [V_j_star] derived from a reply, when there is one: an
    Optimal reply to a problem whose objective has no term has no value. *)
Definition scenario_entry (p : LpProblem) (r : solver_reply) : option number :=
  match r with
  | SolverError _ => Some neg_inf
  | SolverDone st values =>
      if bool_decide (LpStatus st = "Optimal")
      then match objective p with
           | [] => None
           | _ :: _ =>
               Some (finite (fold_left (λ s t, (s + values t.1 * t.2)%Q)
                               (objective p) 0%Q))
           end
      else Some neg_inf
  end.

(** The entry of [V_j_star] derived from a reply. *)
Definition scenario_value (p : LpProblem) (r : solver_reply) : number :=
  match r with
  | SolverError _ => neg_inf
  | SolverDone st values =>
      if bool_decide (LpStatus st = "Optimal")
      then finite (fold_left (λ s t, (s + values t.1 * t.2)%Q) (objective p) 0%Q)
      else neg_inf
  end.

(** Terms of [lpSum(var[i['id']] * c(i) for i in ls)]. *)
Definition terms_of (h : loc → initiative) (c : initiative → Q)
    (ls : list loc) : list (LpVariable * Q) :=
  flat_map (λ l, times (Select (ini_id (h l))) (c (h l))) ls.

(** Value of a linear expression under a total assignment. *)
Definition eval (vals : LpVariable → Q) (ts : list (LpVariable * Q)) : Q :=
  fold_left (λ s t, (s + vals t.1 * t.2)%Q) ts 0%Q.

Definition holds (vals : LpVariable → Q) (c : LpConstraint) : Prop :=
  match c_rhs c, c_sense c with
  | finite b, LpConstraintLE => (eval vals (c_terms c) <= b)%Q
  | finite b, LpConstraintGE => (b <= eval vals (c_terms c))%Q
  | neg_inf, LpConstraintLE => False
  | neg_inf, LpConstraintGE => True
  end.

(** Feasible points: binary [Select] variables, non-negative [Max_Regret],
    all constraints satisfied. *)
Definition feasible (p : LpProblem) (vals : LpVariable → Q) : Prop :=
  (∀ k, Select k ∈ variables p →
        (vals (Select k) == 0)%Q ∨ (vals (Select k) == 1)%Q)
  ∧ (0 <= vals Max_Regret)%Q
  ∧ Forall (holds vals) (constraints p).

Definition optimal (p : LpProblem) (vals : LpVariable → Q) : Prop :=
  feasible p vals ∧
  ∀ vals', feasible p vals' →
    match sense p with
    | LpMaximize => (eval vals' (objective p) <= eval vals (objective p))%Q
    | LpMinimize => (eval vals (objective p) <= eval vals' (objective p))%Q
    end.

(** The knapsack problem the code builds for one scenario. *)
Definition scenario_problem_of (h : loc → initiative) (ls : list loc)
    (total_budget : Q) (scenario_name : string) : LpProblem :=
  scenario_problem scenario_name (terms_of h (returns_of scenario_name) ls)
    (terms_of h cost ls) total_budget.

(** The world after one more call to the back end. *)
Definition logged (p : LpProblem) (w : world) : world :=
  {| objects := objects w; solver_calls := solver_calls w ++ [p] |}.

(** The initiatives picked by the main solve, in iteration order. *)
Definition picked (x : LpVariable → option Q) (h : loc → initiative)
    (ls : list loc) : list loc :=
  List.filter (λ l, chosen x (h l)) ls.

(** The constraint the code builds for the regret of one scenario. *)
Definition regret_constraint_of (h : loc → initiative) (ls : list loc)
    (V : gmap string number) (scenario_name : string) : LpConstraint :=
  {| c_terms := (Max_Regret, 1%Q) :: terms_of h (returns_of scenario_name) ls;
     c_sense := LpConstraintGE;
     c_rhs := default neg_inf (V !! scenario_name) |}.

(** The minimax problem the code builds. *)
Definition main_problem_of (h : loc → initiative) (ls : list loc)
    (V : gmap string number) (total_budget min_portfolio_worst_return : Q)
    : LpProblem :=
  minimax_problem (map (regret_constraint_of h ls V) scenarios)
    (terms_of h cost ls) (terms_of h R_worst ls)
    total_budget min_portfolio_worst_return.

Definition is_minimax_problem (p : LpProblem) : Prop :=
  name p = "Minimax_Regret_Investment_Portfolio"
  ∧ sense p = LpMinimize
  ∧ objective p = [(Max_Regret, 1%Q)].

(** The four ways in which [solve_minimax_regret_optimization] returns. *)
Inductive exit (cbc : solver) (data : list loc) (B thr floor : Q)
    (pen : Q → outcome Q) (w : world) (r : Result) (w' : world) : Prop :=
| exit_no_eligible :
    eligible thr (objects w) data = [] →
    r = empty_result "No Eligible Initiatives" ∅ →
    w' = w →
    exit cbc data B thr floor pen w r w'
| exit_ideal_error w1 V :
    calculate_effective_returns (eligible thr (objects w) data) pen w
      = (Return (eligible thr (objects w) data), w1) →
    calculate_optimal_scenario_returns cbc (eligible thr (objects w) data) B w1
      = (Return V, w') →
    any_neg_inf V = true →
    r = empty_result "Error in V_j_star calculation" V →
    exit cbc data B thr floor pen w r w'
| exit_main_error w1 w2 V prob msg :
    calculate_effective_returns (eligible thr (objects w) data) pen w
      = (Return (eligible thr (objects w) data), w1) →
    calculate_optimal_scenario_returns cbc (eligible thr (objects w) data) B w1
      = (Return V, w2) →
    any_neg_inf V = false →
    prob = main_problem_of (objects w2) (eligible thr (objects w) data) V B floor →
    cbc (solver_calls w2) prob = SolverError msg →
    w' = logged prob w2 →
    r = empty_result ("Error solving main problem: " +:+ msg) V →
    exit cbc data B thr floor pen w r w'
| exit_main_solved w1 w2 V prob st vals acc regrets :
    calculate_effective_returns (eligible thr (objects w) data) pen w
      = (Return (eligible thr (objects w) data), w1) →
    calculate_optimal_scenario_returns cbc (eligible thr (objects w) data) B w1
      = (Return V, w2) →
    any_neg_inf V = false →
    prob = main_problem_of (objects w2) (eligible thr (objects w) data) V B floor →
    cbc (solver_calls w2) prob = SolverDone st vals →
    w' = logged prob w2 →
    (if bool_decide (st = LpStatusOptimal)
     then select_loop (varValue_of prob vals) (eligible thr (objects w) data)
            {| t_selected := []; t_cost := 0; t_returns := zero_returns |} w'
          = (Return acc, w')
          ∧ regret_loop V (t_returns acc) scenarios zero_regrets = Return regrets
     else acc = {| t_selected := []; t_cost := 0; t_returns := zero_returns |}
          ∧ regrets = zero_regrets) →
    r = {| status := LpStatus st;
           min_max_regret :=
             if bool_decide (st = LpStatusOptimal)
             then Some (eval vals (objective prob)) else None;
           selected_initiatives := t_selected acc;
           total_cost := t_cost acc;
           total_actual_returns := t_returns acc;
           v_j_star := V;
           regrets_for_selected_portfolio := regrets |} →
    exit cbc data B thr floor pen w r w'.

(** ** Example data *)

Definition new_initiative (k : string) (c conf best med worst : Q) : initiative :=
  {| ini_id := k; cost := c; confidence := conf;
     R_best := best; R_med := med; R_worst := worst;
     gamma := None; effective_returns := None |}.

(** Three initiatives A, B, C at references 0, 1, 2; every other reference
    holds an all-zero initiative Z. *)
Definition example_objects (l : loc) : initiative :=
  match l with
  | 0%nat => new_initiative "A" 10 1 100 80 50
  | 1%nat => new_initiative "B" 10 (1 # 2) 90 60 40
  | 2%nat => new_initiative "C" 5 (1 # 5) 70 50 30
  | _ => new_initiative "Z" 0 1 0 0 0
  end.

Definition example_world : world :=
  {| objects := example_objects; solver_calls := [] |}.

(** A reply selecting the initiatives [ks], with regret [theta]. *)
Definition pick (ks : list string) (theta : Q) (v : LpVariable) : Q :=
  match v with
  | Select k => if bool_decide (k ∈ ks) then 1%Q else 0%Q
  | Max_Regret => theta
  end.

(** A back end that answers every problem with A selected and regret 0, the
    optimum of all four problems of the example. *)
Definition cbc_picks_A : solver :=
  λ _ _, SolverDone LpStatusOptimal (pick ["A"] 0).

(** A back end that is stopped before it settles the main problem. *)
Definition cbc_stopped : solver :=
  λ _ p, match sense p with
         | LpMaximize => SolverDone LpStatusOptimal (pick ["A"] 0)
         | LpMinimize => SolverDone LpStatusNotSolved (pick [] 0)
         end.

(** A back end that fails on the median scenario. *)
Definition cbc_fails_med : solver :=
  λ _ p, if bool_decide (name p = "Optimal_Return_Scenario_med")
         then SolverError "solver crashed"
         else SolverDone LpStatusOptimal (pick ["A"] 0).

Definition the_result (run : outcome Result * world) : Result :=
  match run.1 with
  | Return r => r
  | Raise _ => empty_result "" ∅
  end.

(** The statuses the specification lists. *)
Definition listed_status (s : string) : Prop :=
  s ∈ ["Optimal"; "Infeasible"; "Unbounded"; "Undefined"; "No Eligible Initiatives"]
  ∨ ∃ detail, s = "Error" +:+ detail.

(** The statuses the code produces. *)
Definition produced_status (s : string) : Prop :=
  s ∈ ["Optimal"; "Not Solved"; "Infeasible"; "Unbounded"; "Undefined";
       "No Eligible Initiatives"; "Error in V_j_star calculation"]
  ∨ ∃ e, s = "Error solving main problem: " +:+ e.

(** The run of the example in which the median scenario cannot be solved,
    stage by stage. *)
Definition example_processed : outcome (list loc) * world :=
  calculate_effective_returns [0; 1]%nat calculate_gamma example_world.


Definition the_ideals (run : outcome (gmap string number) * world) : gmap string number :=
  match run.1 with
  | Return V => V
  | Raise _ => ∅
  end.

(** The run of the example with the back end stopped on the main problem. *)
Definition example_stopped : outcome Result * world :=
  solve_minimax_regret_optimization cbc_stopped [0; 1; 2]%nat 15 (3 # 10) 40
    calculate_gamma example_world.

(** The run of the example with a back end that answers correctly. *)
Definition example_optimal : outcome Result * world :=
  solve_minimax_regret_optimization cbc_picks_A [0; 1; 2]%nat 15 (3 # 10) 40
    calculate_gamma example_world.

(** The run of the example extended with the all-zero initiative Z
    (reference 3). *)
Definition example_degenerate : outcome Result * world :=
  solve_minimax_regret_optimization cbc_picks_A [0; 3]%nat 15 (3 # 10) 40
    calculate_gamma example_world.

(** A single initiative F that costs nothing, already processed. *)
Definition free_world : world :=
  (calculate_effective_returns [0]%nat calculate_gamma
     {| objects := λ _, new_initiative "F" 0 1 10 8 5; solver_calls := [] |}).2.

Definition cbc_picks_F : solver :=
  λ _ _, SolverDone LpStatusOptimal (pick ["F"] 0).

(** What a back end that solves the scenario problems exactly reports. *)
Definition solves_scenarios (cbc : solver) (h : loc → initiative)
    (ls : list loc) (total_budget : Q) : Prop :=
  ∀ hist s, s ∈ scenarios →
    ∃ vals, cbc hist (scenario_problem_of h ls total_budget s)
            = SolverDone LpStatusOptimal vals
            ∧ optimal (scenario_problem_of h ls total_budget s) vals.

(** The zero-budget property as the specification words it. *)
Definition zero_budget_claim : Prop :=
  ∀ (cbc : solver) (ls : list loc) (w : world),
    (∀ l s, l ∈ ls → s ∈ scenarios → returns (effective_return s (objects w l))) →
    (∀ l, l ∈ ls → (0 <= cost (objects w l))%Q) →
    solves_scenarios cbc (objects w) ls 0 →
    ∃ V w', calculate_optimal_scenario_returns cbc ls 0 w = (Return V, w')
            ∧ ∀ s, s ∈ scenarios → ∃ v, V !! s = Some (finite v) ∧ (v == 0)%Q.

Definition free_ideals : outcome (gmap string number) * world :=
  calculate_optimal_scenario_returns cbc_picks_F [0]%nat 0 free_world.

(** A back end that selects nothing. *)
Definition cbc_picks_none : solver :=
  λ _ _, SolverDone LpStatusOptimal (pick [] 0).

(** The raw fields of an initiative. *)
Definition raw_fields (i : initiative) : string * Q * Q * Q * Q * Q :=
  (ini_id i, cost i, confidence i, R_best i, R_med i, R_worst i).

(** A back end that answers the scenario problems and crashes on the minimax
    problem. *)
Definition cbc_crashes_on_main : solver :=
  λ _ p, match sense p with
         | LpMaximize => SolverDone LpStatusOptimal (pick ["A"] 0)
         | LpMinimize => SolverError "cbc died"
         end.

Definition example_degenerate_stopped : outcome Result * world :=
  solve_minimax_regret_optimization cbc_stopped [0; 3]%nat 15 (3 # 10) 40
    calculate_gamma example_world.

(** The example with the confidence of B out of range. *)
Definition example_bad_world : world :=
  {| objects := λ l, match l with
                     | 1%nat => new_initiative "B" 10 (3 # 2) 90 60 40
                     | _ => example_objects l
                     end;
     solver_calls := [] |}.

Definition example_aborted : outcome Result * world :=
  solve_minimax_regret_optimization cbc_picks_A [0; 1; 2]%nat 15 (1 # 10) 40
    calculate_gamma example_bad_world.

(** A single initiative G whose worst return is 0, already processed. *)
Definition flat_world : world :=
  (calculate_effective_returns [0]%nat calculate_gamma
     {| objects := λ _, new_initiative "G" 10 (1 # 2) 90 60 0; solver_calls := [] |}).2.

(** * Part II: properties *)

(** ** The monad *)

Lemma bind_return {A B} (m : M A) (f : A → M B) w a w1 :
  m w = (Return a, w1) → (m ≫= f) w = f a w1.
Proof. intros H. unfold mbind, M_bind. rewrite H. reflexivity. Qed.

Lemma bind_raise {A B} (m : M A) (f : A → M B) w e w1 :
  m w = (Raise e, w1) → (m ≫= f) w = (Raise e, w1).
Proof. intros H. unfold mbind, M_bind. rewrite H. reflexivity. Qed.

Lemma bind_inv {A B} (m : M A) (f : A → M B) w b w' :
  (m ≫= f) w = (Return b, w') →
  ∃ a w1, m w = (Return a, w1) ∧ f a w1 = (Return b, w').
Proof.
  unfold mbind, M_bind. destruct (m w) as [[e|a] w1]; [discriminate|].
  intros H. eauto.
Qed.

Lemma preserves_world_bind {A B} (m : M A) (f : A → M B) :
  preserves_world m → (∀ a, preserves_world (f a)) → preserves_world (m ≫= f).
Proof.
  intros Hm Hf w. unfold mbind, M_bind.
  specialize (Hm w). destruct (m w) as [[e|a] w1]; simpl in *; subst; [reflexivity|].
  apply Hf.
Qed.

Lemma preserves_world_ret {A} (a : A) : preserves_world (mret a : M A).
Proof. intros w. reflexivity. Qed.

Lemma preserves_world_lift {A} (o : outcome A) : preserves_world (lift o).
Proof. intros w. reflexivity. Qed.

Lemma preserves_world_read l : preserves_world (read l).
Proof. intros w. reflexivity. Qed.

Create HintDb frame.
#[export] Hint Resolve preserves_world_ret preserves_world_lift preserves_world_read : frame.

Ltac frame := repeat (first [ apply preserves_world_bind; [|intros ?] | solve [auto with frame] ]).

Lemma lpSum_select_frame coef ls : preserves_world (lpSum_select coef ls).
Proof. induction ls as [|l ls IH]; simpl; frame. Qed.
#[export] Hint Resolve lpSum_select_frame : frame.

Lemma filter_eligible_frame thr ls : preserves_world (filter_eligible thr ls).
Proof. induction ls as [|l ls IH]; simpl; frame. Qed.

Lemma filter_eligible_eq thr ls w :
  filter_eligible thr ls w = (Return (eligible thr (objects w) ls), w).
Proof.
  induction ls as [|l ls IH]; [reflexivity|].
  simpl. unfold mbind, M_bind, read. rewrite IH. simpl.
  unfold mret, M_ret. destruct (Qle_bool thr (confidence (objects w l))); reflexivity.
Qed.
Lemma between_spec lo x hi : between lo x hi = true ↔ (lo <= x)%Q ∧ (x <= hi)%Q.
Proof.
  unfold between. rewrite andb_true_iff, !Qle_bool_iff. reflexivity.
Qed.

Lemma calculate_gamma_in_range c :
  (0 <= c)%Q → (c <= 1)%Q → calculate_gamma c = Return (1 - c)%Q.
Proof.
  intros H0 H1. unfold calculate_gamma.
  assert (between 0 c 1 = true) as -> by (apply between_spec; split; assumption).
  reflexivity.
Qed.

Lemma calculate_gamma_out_of_range c :
  ¬ ((0 <= c)%Q ∧ (c <= 1)%Q) →
  calculate_gamma c = Raise (ValueError "Confidence score must be between 0 and 1.").
Proof.
  intros H. unfold calculate_gamma.
  destruct (between 0 c 1) eqn:E; [|reflexivity].
  apply between_spec in E. contradiction.
Qed.

(** C2: on a confidence in [0,1] the default penalty model returns
    [1 - confidence], which again lies in [0,1]; it raises (a [ValueError],
    the domain error) exactly when the confidence is outside [0,1]. *)
Theorem calculate_gamma_contract (c : Q) :
  ((0 <= c)%Q ∧ (c <= 1)%Q →
     calculate_gamma c = Return (1 - c)%Q ∧ (0 <= 1 - c)%Q ∧ (1 - c <= 1)%Q)
  ∧ (raises (calculate_gamma c) ↔ ¬ ((0 <= c)%Q ∧ (c <= 1)%Q))
  ∧ (∀ e, calculate_gamma c = Raise e → ∃ msg, e = ValueError msg).
Proof.
  split; [|split].
  - intros [H0 H1]. split; [apply calculate_gamma_in_range; assumption|].
    split; lra.
  - split.
    + intros [e He] [H0 H1].
      rewrite calculate_gamma_in_range in He by assumption. discriminate.
    + intros H. eexists. apply calculate_gamma_out_of_range. assumption.
  - intros e He. unfold calculate_gamma in He.
    destruct (negb (between 0 c 1)); [|discriminate].
    injection He as <-. eexists. reflexivity.
Qed.

Lemma calculate_gamma_contract_witness :
  calculate_gamma (1 # 4) = Return (1 - (1 # 4))%Q
  ∧ (0 <= 1 - (1 # 4))%Q ∧ (1 - (1 # 4) <= 1)%Q.
Proof.
  apply (proj1 (calculate_gamma_contract (1 # 4))).
  split; discriminate.
Defined.

Lemma calculate_gamma_penalty_contract : penalty_contract calculate_gamma.
Proof.
  intros c H0 H1. exists (1 - c)%Q. apply calculate_gamma_in_range; assumption.
Qed.

Lemma process_initiative_return pen l w g :
  pen (confidence (objects w l)) = Return g →
  ∃ w', process_initiative pen l w = (Return tt, w')
        ∧ solver_calls w' = solver_calls w
        ∧ ∀ l', objects w' l' =
                if decide (l' = l) then augmented g (objects w l) else objects w l'.
Proof.
  intros Hg. unfold process_initiative.
  unfold mbind, M_bind, read, lift, update, write. simpl. rewrite Hg. simpl.
  unfold mbind, M_bind, read, lift, update, write; simpl.
  eexists. split; [reflexivity|]. simpl. split; [reflexivity|].
  intros l'. destruct (decide (l = l)) as [_|?]; [|congruence].
  destruct (decide (l' = l)); reflexivity.
Qed.

Lemma process_initiative_raise pen l w e :
  pen (confidence (objects w l)) = Raise e →
  process_initiative pen l w = (Raise e, w).
Proof.
  intros He. unfold process_initiative.
  unfold mbind, M_bind, read, lift. simpl. rewrite He. reflexivity.
Qed.

Lemma augmented_confidence g i : confidence (augmented g i) = confidence i.
Proof. reflexivity. Qed.

Lemma augmented_idem g i : augmented g (augmented g i) = augmented g i.
Proof. reflexivity. Qed.

Lemma augment_confidence pen i : confidence (augment pen i) = confidence i.
Proof. unfold augment. destruct (pen (confidence i)); reflexivity. Qed.

Lemma augment_idem pen i : augment pen (augment pen i) = augment pen i.
Proof.
  unfold augment at 1. rewrite augment_confidence.
  unfold augment. destruct (pen (confidence i)); reflexivity.
Qed.

(** The loop of [calculate_effective_returns], from any world. *)
Lemma for_each_process_return pen ls : ∀ w,
  (∀ l, l ∈ ls → returns (pen (confidence (objects w l)))) →
  ∃ w', for_each ls (process_initiative pen) w = (Return tt, w')
        ∧ solver_calls w' = solver_calls w
        ∧ ∀ l, objects w' l =
               if decide (l ∈ ls) then augment pen (objects w l) else objects w l.
Proof.
  induction ls as [|l0 ls IH]; intros w Hpen.
  - exists w. split; [reflexivity|]. split; [reflexivity|].
    intros l. rewrite decide_False; [reflexivity|]. apply not_elem_of_nil.
  - destruct (Hpen l0) as [g Hg]; [left|].
    destruct (process_initiative_return pen l0 w g Hg) as (w1 & H1 & Hc1 & Ho1).
    destruct (IH w1) as (w' & H' & Hc' & Ho').
    { intros l Hl. rewrite Ho1. destruct (decide (l = l0)) as [->|_].
      - rewrite augmented_confidence. apply Hpen. left.
      - apply Hpen. right. assumption. }
    exists w'. split; [|split].
    + simpl. rewrite (bind_return _ _ _ _ _ H1). assumption.
    + congruence.
    + intros l. rewrite Ho', Ho1.
      assert (Haug : augment pen (objects w l0) = augmented g (objects w l0)).
      { unfold augment. rewrite Hg. reflexivity. }
      destruct (decide (l = l0)) as [->|Hne].
      * rewrite (decide_True (P := l0 ∈ l0 :: ls)) by left.
        rewrite Haug.
        destruct (decide (l0 ∈ ls)); [|reflexivity].
        unfold augment. rewrite augmented_confidence, Hg. reflexivity.
      * destruct (decide (l ∈ ls)) as [Hin|Hnin].
        -- rewrite decide_True by (right; assumption). reflexivity.
        -- rewrite decide_False; [reflexivity|].
           intros Hin. apply elem_of_cons in Hin as [?|?]; contradiction.
Qed.

(** Whatever the outcome, the loop touches only the listed initiatives and
    never the solver log. *)
Lemma for_each_process_frame pen ls : ∀ w,
  solver_calls (for_each ls (process_initiative pen) w).2 = solver_calls w
  ∧ ∀ l, l ∉ ls →
         objects (for_each ls (process_initiative pen) w).2 l = objects w l.
Proof.
  induction ls as [|l0 ls IH]; intros w.
  - split; [reflexivity|]. intros; reflexivity.
  - simpl. destruct (pen (confidence (objects w l0))) as [e|g] eqn:Hg.
    + rewrite (bind_raise _ _ _ _ _ (process_initiative_raise pen l0 w e Hg)).
      split; [reflexivity|]. intros; reflexivity.
    + destruct (process_initiative_return pen l0 w g Hg) as (w1 & H1 & Hc1 & Ho1).
      rewrite (bind_return _ _ _ _ _ H1).
      destruct (IH w1) as [Hc Ho]. split; [congruence|].
      intros l Hl. apply not_elem_of_cons in Hl as [Hne Hnin].
      rewrite (Ho l Hnin), Ho1. rewrite decide_False by assumption. reflexivity.
Qed.

(** If the loop returns, the penalty model returned on every listed
    initiative. *)
Lemma for_each_process_inv pen ls : ∀ w w',
  for_each ls (process_initiative pen) w = (Return tt, w') →
  ∀ l, l ∈ ls → returns (pen (confidence (objects w l))).
Proof.
  induction ls as [|l0 ls IH]; intros w w' H l Hl.
  - apply elem_of_nil in Hl as [].
  - simpl in H. destruct (pen (confidence (objects w l0))) as [e|g] eqn:Hg.
    + rewrite (bind_raise _ _ _ _ _ (process_initiative_raise pen l0 w e Hg)) in H.
      discriminate.
    + destruct (process_initiative_return pen l0 w g Hg) as (w1 & H1 & Hc1 & Ho1).
      rewrite (bind_return _ _ _ _ _ H1) in H.
      apply elem_of_cons in Hl as [->|Hl]; [exists g; assumption|].
      specialize (IH w1 w' H l Hl). rewrite Ho1 in IH.
      destruct (decide (l = l0)) as [->|_]; [exists g; assumption|assumption].
Qed.

(** ** Building linear expressions *)

Lemma or_zero_return coef i c : coef i = Return c → or_zero coef i = c.
Proof. intros H. unfold or_zero. rewrite H. reflexivity. Qed.

Lemma lpSum_select_return coef ls w :
  (∀ l, l ∈ ls → returns (coef (objects w l))) →
  lpSum_select coef ls w = (Return (terms_of (objects w) (or_zero coef) ls), w).
Proof.
  induction ls as [|l ls IH]; intros H; [reflexivity|].
  destruct (H l) as [c Hc]; [left|].
  change (terms_of (objects w) (or_zero coef) (l :: ls)) with
    (times (Select (ini_id (objects w l))) (or_zero coef (objects w l))
       ++ terms_of (objects w) (or_zero coef) ls)%list.
  rewrite (or_zero_return _ _ _ Hc).
  simpl. unfold mbind, M_bind, read, lift; simpl.
  rewrite Hc, IH by (intros; apply H; right; assumption). reflexivity.
Qed.

Lemma lpSum_select_inv coef ls w ts w' :
  lpSum_select coef ls w = (Return ts, w') →
  w' = w ∧ ts = terms_of (objects w) (or_zero coef) ls
  ∧ ∀ l, l ∈ ls → returns (coef (objects w l)).
Proof.
  revert ts w'. induction ls as [|l ls IH]; intros ts w' H.
  - injection H as <- <-. split; [reflexivity|]. split; [reflexivity|].
    intros l Hl. apply elem_of_nil in Hl as [].
  - simpl in H.
    apply bind_inv in H as (i & w1 & Hi & H). injection Hi as <- <-.
    apply bind_inv in H as (c & w2 & Hc & H). injection Hc as Hc <-.
    apply bind_inv in H as (ts' & w3 & Hrest & H).
    apply IH in Hrest as (-> & -> & Hall).
    injection H as <- <-. split; [reflexivity|]. split.
    + change (terms_of (objects w) (or_zero coef) (l :: ls)) with
        (times (Select (ini_id (objects w l))) (or_zero coef (objects w l))
           ++ terms_of (objects w) (or_zero coef) ls)%list.
      rewrite (or_zero_return _ _ _ Hc). reflexivity.
    + intros l' Hl'. apply elem_of_cons in Hl' as [->|?]; [exists c; assumption|auto].
Qed.

Lemma terms_of_vars h c ls t :
  t ∈ terms_of h c ls → ∃ l, l ∈ ls ∧ t = (Select (ini_id (h l)), c (h l)).
Proof.
  unfold terms_of. rewrite list_elem_of_In, in_flat_map.
  intros (l & Hl & Ht). exists l. split; [apply list_elem_of_In; assumption|].
  unfold times in Ht. destruct (Qeq_bool (c (h l)) 0); [destruct Ht|].
  destruct Ht as [<-|[]]. reflexivity.
Qed.

(** ** Reading values back *)

Lemma value_from_assigned (vars : list LpVariable) vals ts : ∀ s,
  (∀ t, t ∈ ts → t.1 ∈ vars) →
  value_from (λ v, if decide (v ∈ vars) then Some (vals v) else None) ts s
  = Some (fold_left (λ s t, (s + vals t.1 * t.2)%Q) ts s).
Proof.
  induction ts as [|[v x] ts IH]; intros s H; [reflexivity|].
  simpl. rewrite decide_True by (apply (H (v, x)); left).
  apply IH. intros t Ht. apply H. right. assumption.
Qed.

Lemma value_objective p vals :
  value (varValue_of p vals) (objective p) = Some (eval vals (objective p)).
Proof.
  unfold value, eval, varValue_of. apply value_from_assigned.
  intros t Ht. unfold variables. apply elem_of_app. left.
  apply list_elem_of_fmap. exists t. split; [reflexivity|assumption].
Qed.

Lemma objective_value_nonempty p vals :
  objective p ≠ [] →
  objective_value (varValue_of p vals) (objective p) = Some (eval vals (objective p)).
Proof.
  intros Hne. unfold objective_value.
  destruct (objective p) as [|t ts] eqn:E; [congruence|].
  rewrite <- E. apply value_objective.
Qed.

(** ** The call to the back end *)

Lemma solve_eq cbc p w :
  solve cbc p w =
  (Return (reported p (cbc (solver_calls w) p)), logged p w).
Proof.
  unfold solve, mbind, M_bind, calls_so_far, log_call; simpl.
  destruct (cbc (solver_calls w) p); reflexivity.
Qed.

(** ** The scenario-ideal solves *)

Lemma scenario_entry_nonempty p r :
  objective p ≠ [] → scenario_entry p r = Some (scenario_value p r).
Proof.
  intros Hne. unfold scenario_entry, scenario_value.
  destruct r as [msg|st vals]; [reflexivity|].
  destruct (bool_decide (LpStatus st = "Optimal")); [|reflexivity].
  destruct (objective p); [congruence|reflexivity].
Qed.

(** One turn of the loop, on processed initiatives. *)
Lemma scenario_turn cbc ls B s rest V w :
  (∀ l, l ∈ ls → returns (effective_return s (objects w l))) →
  let p := scenario_problem_of (objects w) ls B s in
  scenario_loop cbc ls B (s :: rest) V w =
  match scenario_entry p (cbc (solver_calls w) p) with
  | Some v => scenario_loop cbc ls B rest (<[s := v]> V) (logged p w)
  | None =>
      (Raise (TypeError "unsupported format string passed to NoneType.__format__"),
       logged p w)
  end.
Proof.
  intros Hret p. simpl.
  rewrite (bind_return _ _ _ _ _ (lpSum_select_return _ ls w Hret)).
  rewrite (bind_return _ _ _ _ _
             (lpSum_select_return (λ i, Return (cost i)) ls w
                ltac:(intros; eexists; reflexivity))).
  rewrite (bind_return _ _ _ _ _ (solve_eq cbc _ w)).
  change (scenario_problem s (terms_of (objects w) (or_zero (effective_return s)) ls)
            (terms_of (objects w) (or_zero (λ i, Return (cost i))) ls) B) with p.
  unfold scenario_entry.
  destruct (cbc (solver_calls w) p) as [msg|st vals]; [reflexivity|].
  unfold reported. cbn [prob_status varValue].
  destruct (bool_decide (LpStatus st = "Optimal")); [|reflexivity].
  change (terms_of (objects w) (or_zero (effective_return s)) ls) with (objective p).
  destruct (objective p) as [|t ts] eqn:E; [reflexivity|].
  rewrite <- E, objective_value_nonempty by congruence. reflexivity.
Qed.

Lemma scenario_step cbc ls B s rest V w :
  (∀ l, l ∈ ls → returns (effective_return s (objects w l))) →
  objective (scenario_problem_of (objects w) ls B s) ≠ [] →
  let p := scenario_problem_of (objects w) ls B s in
  scenario_loop cbc ls B (s :: rest) V w =
  scenario_loop cbc ls B rest
    (<[s := scenario_value p (cbc (solver_calls w) p)]> V) (logged p w).
Proof.
  intros Hret Hne p. rewrite scenario_turn by assumption.
  fold p. rewrite scenario_entry_nonempty by assumption. reflexivity.
Qed.

Lemma scenario_loop_return cbc ls B names : ∀ V w,
  (∀ l s, l ∈ ls → s ∈ names → returns (effective_return s (objects w l))) →
  (∀ s, s ∈ names → objective (scenario_problem_of (objects w) ls B s) ≠ []) →
  ∃ V' w', scenario_loop cbc ls B names V w = (Return V', w')
    ∧ objects w' = objects w
    ∧ solver_calls w' =
        solver_calls w ++ map (scenario_problem_of (objects w) ls B) names
    ∧ (∀ s, s ∉ names → V' !! s = V !! s)
    ∧ (∀ s, s ∈ names → ∃ hist,
         V' !! s = Some (scenario_value (scenario_problem_of (objects w) ls B s)
                           (cbc hist (scenario_problem_of (objects w) ls B s)))).
Proof.
  induction names as [|s0 names IH]; intros V w Hret Hne.
  - exists V, w. split; [reflexivity|]. split; [reflexivity|].
    split; [simpl; rewrite app_nil_r; reflexivity|].
    split; [reflexivity|]. intros s Hs. apply elem_of_nil in Hs as [].
  - rewrite scenario_step
      by (first [apply Hne; left | intros; apply Hret; [assumption|left]]).
    set (p := scenario_problem_of (objects w) ls B s0).
    destruct (IH (<[s0 := scenario_value p (cbc (solver_calls w) p)]> V) (logged p w))
      as (V' & w' & Hrun & Hobj & Hcalls & Hout & Hin).
    { intros l s Hl Hs. apply Hret; [assumption|right; assumption]. }
    { intros s Hs. apply Hne. right. assumption. }
    exists V', w'. split; [assumption|]. split; [assumption|].
    split; [|split].
    + rewrite Hcalls. simpl. rewrite <- app_assoc. reflexivity.
    + intros s Hs. apply not_elem_of_cons in Hs as [Hns Hnin].
      rewrite (Hout s Hnin). apply lookup_insert_ne. congruence.
    + intros s Hs. destruct (decide (s ∈ names)) as [Hr|Hr]; [apply Hin; assumption|].
      apply elem_of_cons in Hs as [->|Hs]; [|contradiction].
      exists (solver_calls w). rewrite (Hout s0 Hr). apply lookup_insert_eq.
Qed.

(** Whatever happens, the scenario solves leave the initiatives alone and
    submit maximisation problems only. *)
Lemma scenario_loop_frame cbc ls B names : ∀ V w,
  objects (scenario_loop cbc ls B names V w).2 = objects w
  ∧ ∃ ps, solver_calls (scenario_loop cbc ls B names V w).2 = solver_calls w ++ ps
          ∧ Forall (λ p, sense p = LpMaximize) ps.
Proof.
  induction names as [|s0 names IH]; intros V w.
  - split; [reflexivity|]. exists []. rewrite app_nil_r. split; [reflexivity|constructor].
  - simpl.
    destruct (lpSum_select (effective_return s0) ls w) as [[e|obj] w1] eqn:E1;
      pose proof (lpSum_select_frame (effective_return s0) ls w) as F1;
      rewrite E1 in F1; simpl in F1; subst w1.
    { rewrite (bind_raise _ _ _ _ _ E1).
      split; [reflexivity|]. exists []. rewrite app_nil_r. split; [reflexivity|constructor]. }
    rewrite (bind_return _ _ _ _ _ E1).
    destruct (lpSum_select (λ i, Return (cost i)) ls w) as [[e|lhs] w1] eqn:E2;
      pose proof (lpSum_select_frame (λ i, Return (cost i)) ls w) as F2;
      rewrite E2 in F2; simpl in F2; subst w1.
    { rewrite (bind_raise _ _ _ _ _ E2).
      split; [reflexivity|]. exists []. rewrite app_nil_r. split; [reflexivity|constructor]. }
    rewrite (bind_return _ _ _ _ _ E2).
    rewrite (bind_return _ _ _ _ _ (solve_eq cbc _ w)).
    set (p := scenario_problem s0 obj lhs B).
    assert (Hstep : ∀ V1,
      objects (scenario_loop cbc ls B names V1 (logged p w)).2 = objects w
      ∧ ∃ ps, solver_calls (scenario_loop cbc ls B names V1 (logged p w)).2
              = solver_calls w ++ ps ∧ Forall (λ p, sense p = LpMaximize) ps).
    { intros V1. destruct (IH V1 (logged p w)) as (Ho & ps & Hc & Hps).
      split; [assumption|]. exists (p :: ps). split.
      - rewrite Hc. simpl. rewrite <- app_assoc. reflexivity.
      - constructor; [reflexivity|assumption]. }
    destruct (reported p (cbc (solver_calls w) p)) as [msg|sol]; [apply Hstep|].
    destruct (bool_decide (LpStatus (prob_status sol) = "Optimal")); [|apply Hstep].
    destruct (objective_value (varValue sol) obj); [apply Hstep|].
    simpl. split; [reflexivity|]. exists [p]. split; [reflexivity|].
    constructor; [reflexivity|constructor].
Qed.

(** ** The main solve and the assembly of the result *)

Lemma any_neg_inf_true V :
  any_neg_inf V = true ↔ ∃ s, V !! s = Some neg_inf.
Proof.
  unfold any_neg_inf. rewrite existsb_exists. split.
  - intros (v & Hin & Hv). destruct v; [|discriminate].
    apply list_elem_of_In, list_elem_of_fmap in Hin as ([s v] & Hv' & Hin).
    simpl in Hv'. subst v. exists s. apply elem_of_map_to_list. assumption.
  - intros (s & Hs). exists neg_inf. split; [|reflexivity].
    apply list_elem_of_In, list_elem_of_fmap. exists (s, neg_inf).
    split; [reflexivity|]. apply elem_of_map_to_list. assumption.
Qed.


Lemma regret_constraints_frame ls V names :
  preserves_world (regret_constraints ls V names).
Proof. induction names as [|s names IH]; simpl; frame. Qed.

Lemma regret_constraint_of_lookup h ls V s v :
  V !! s = Some v →
  regret_constraint_of h ls V s
  = {| c_terms := (Max_Regret, 1%Q) :: terms_of h (returns_of s) ls;
       c_sense := LpConstraintGE; c_rhs := v |}.
Proof. intros H. unfold regret_constraint_of. rewrite H. reflexivity. Qed.

Lemma regret_constraints_inv ls V names : ∀ w cs w',
  regret_constraints ls V names w = (Return cs, w') →
  w' = w
  ∧ cs = map (regret_constraint_of (objects w) ls V) names
  ∧ (∀ s, s ∈ names → is_Some (V !! s))
  ∧ (∀ l s, l ∈ ls → s ∈ names → returns (effective_return s (objects w l))).
Proof.
  induction names as [|s0 names IH]; intros w cs w' H.
  - injection H as <- <-. split; [reflexivity|]. split; [reflexivity|].
    split; intros; exfalso; eapply not_elem_of_nil; eassumption.
  - simpl in H.
    apply bind_inv in H as (v & w1 & Hv & H). injection Hv as Hv <-.
    apply bind_inv in H as (ts & w1 & Hts & H).
    apply lpSum_select_inv in Hts as (-> & -> & Hret).
    apply bind_inv in H as (cs' & w1 & Hcs & H).
    apply IH in Hcs as (-> & -> & Hkeys & Hrets).
    injection H as <- <-. unfold getitem in Hv.
    destruct (V !! s0) as [v0|] eqn:Hs0; [|discriminate]. injection Hv as ->.
    split; [reflexivity|]. split.
    { cbn [map]. rewrite (regret_constraint_of_lookup _ _ _ _ _ Hs0). reflexivity. }
    split.
    + intros s Hs. apply elem_of_cons in Hs as [->|Hs]; [rewrite Hs0; eauto|auto].
    + intros l s Hl Hs. apply elem_of_cons in Hs as [->|Hs]; auto.
Qed.

Lemma regret_constraints_return ls V names w :
  (∀ s, s ∈ names → is_Some (V !! s)) →
  (∀ l s, l ∈ ls → s ∈ names → returns (effective_return s (objects w l))) →
  regret_constraints ls V names w
  = (Return (map (regret_constraint_of (objects w) ls V) names), w).
Proof.
  induction names as [|s0 names IH]; intros Hkeys Hret; [reflexivity|].
  simpl. destruct (Hkeys s0) as [v Hv]; [left|].
  unfold getitem. rewrite Hv.
  unfold mbind at 1, M_bind at 1, lift at 1.
  rewrite (bind_return _ _ _ _ _
             (lpSum_select_return (effective_return s0) ls w
                ltac:(intros; apply Hret; [assumption|left]))).
  rewrite (bind_return _ _ _ _ _
             (IH ltac:(intros; apply Hkeys; right; assumption)
                 ltac:(intros; apply Hret; [assumption|right; assumption]))).
  cbn [map]. rewrite (regret_constraint_of_lookup _ _ _ _ _ Hv). reflexivity.
Qed.

Lemma scenarios_NoDup : NoDup scenarios.
Proof.
  unfold scenarios. repeat constructor; rewrite ?elem_of_cons, ?elem_of_nil;
    intros H; repeat destruct H as [H|H]; try discriminate; assumption.
Qed.

Lemma add_returns_inv i names : ∀ tr w tr' w',
  NoDup names →
  add_returns i names tr w = (Return tr', w') →
  w' = w
  ∧ (∀ s, s ∈ names → returns (effective_return s (objects w i)))
  ∧ ∀ s, tr' !! s =
         if decide (s ∈ names)
         then (λ a, (a + returns_of s (objects w i))%Q) <$> tr !! s
         else tr !! s.
Proof.
  induction names as [|s0 names IH]; intros tr w tr' w' Hnd H.
  - injection H as <- <-. split; [reflexivity|]. split.
    + intros s Hs. apply elem_of_nil in Hs as [].
    + intros s. rewrite decide_False by apply not_elem_of_nil. reflexivity.
  - apply NoDup_cons in Hnd as [Hnin Hnd]. simpl in H.
    apply bind_inv in H as (old & w1 & Hold & H). injection Hold as Hold <-.
    apply bind_inv in H as (r & w1 & Hr & H).
    apply bind_inv in Hr as (ini & w2 & Hini & Hr). injection Hini as <- <-.
    injection Hr as Hr <-.
    apply IH in H as (-> & Hret & Hlook); [|assumption].
    split; [reflexivity|]. split.
    + intros s Hs. apply elem_of_cons in Hs as [->|Hs]; [exists r; assumption|auto].
    + intros s. rewrite Hlook. unfold getitem in Hold.
      destruct (tr !! s0) as [old'|] eqn:Hs0; [|discriminate]. injection Hold as ->.
      destruct (decide (s = s0)) as [->|Hne].
      * rewrite decide_False by assumption.
        rewrite decide_True by left. rewrite lookup_insert_eq, Hs0. simpl.
        unfold returns_of. rewrite (or_zero_return _ _ _ Hr). reflexivity.
      * rewrite lookup_insert_ne by congruence.
        destruct (decide (s ∈ names)) as [Hin|Hnin'].
        -- rewrite decide_True by (right; assumption). reflexivity.
        -- rewrite decide_False; [reflexivity|].
           intros Hc. apply elem_of_cons in Hc as [?|?]; contradiction.
Qed.

Lemma picked_cons x h l ls :
  picked x h (l :: ls) =
  if chosen x (h l) then l :: picked x h ls else picked x h ls.
Proof. reflexivity. Qed.

Lemma select_loop_cons x i rest acc :
  select_loop x (i :: rest) acc =
  (ini ← read i;
   match x (Select (ini_id ini)) with
   | None =>
       lift (Raise (TypeError
         "'>' not supported between instances of 'NoneType' and 'float'"))
   | Some v =>
       if Qgt_bool v (1 # 2) then
         returns ← add_returns i scenarios (t_returns acc);
         select_loop x rest
           {| t_selected := t_selected acc ++ [ini_id ini];
              t_cost := (t_cost acc + cost ini)%Q;
              t_returns := returns |}
       else select_loop x rest acc
   end).
Proof. reflexivity. Qed.

Lemma select_loop_inv x ls : ∀ acc w acc' w',
  select_loop x ls acc w = (Return acc', w') →
  w' = w
  ∧ (∀ l, l ∈ ls → is_Some (x (Select (ini_id (objects w l)))))
  ∧ t_selected acc' =
      t_selected acc ++ map (λ l, ini_id (objects w l)) (picked x (objects w) ls)
  ∧ t_cost acc' =
      fold_left Qplus (map (λ l, cost (objects w l)) (picked x (objects w) ls))
        (t_cost acc)
  ∧ (∀ l s, l ∈ picked x (objects w) ls → s ∈ scenarios →
            returns (effective_return s (objects w l)))
  ∧ ∀ s, s ∈ scenarios →
         t_returns acc' !! s =
         (λ a, fold_left Qplus
                 (map (λ l, returns_of s (objects w l)) (picked x (objects w) ls)) a)
           <$> t_returns acc !! s.
Proof.
  induction ls as [|l ls IH]; intros acc w acc' w' H.
  - injection H as <- <-. split; [reflexivity|]. split.
    { intros l Hl. apply elem_of_nil in Hl as []. }
    simpl. rewrite app_nil_r. split; [reflexivity|]. split; [reflexivity|]. split.
    { intros l s Hl. apply elem_of_nil in Hl as []. }
    intros s _. destruct (t_returns acc !! s); reflexivity.
  - rewrite select_loop_cons in H.
    apply bind_inv in H as (ini & w1 & Hini & H). injection Hini as <- <-.
    destruct (x (Select (ini_id (objects w l)))) as [v|] eqn:Hx; [|discriminate].
    assert (Hch : chosen x (objects w l) = Qgt_bool v (1 # 2))
      by (unfold chosen; rewrite Hx; reflexivity).
    rewrite !picked_cons, Hch.
    destruct (Qgt_bool v (1 # 2)) eqn:Hv.
    + apply bind_inv in H as (tr & w1 & Hadd & H).
      apply add_returns_inv in Hadd as (-> & Hret & Hlook); [|apply scenarios_NoDup].
      apply IH in H as (-> & Hsome & Hsel & Hcost & Hrets & Htr). simpl in *.
      split; [reflexivity|]. split.
      { intros l' Hl'. apply elem_of_cons in Hl' as [->|?]; [rewrite Hx; eauto|auto]. }
      split; [rewrite Hsel, <- app_assoc; reflexivity|].
      split; [assumption|]. split.
      { intros l' s Hl' Hs. apply elem_of_cons in Hl' as [->|?]; [auto|].
        apply Hrets; assumption. }
      intros s Hs. rewrite (Htr s Hs), Hlook, decide_True by assumption.
      destruct (t_returns acc !! s); reflexivity.
    + apply IH in H as (-> & Hsome & Hsel & Hcost & Hrets & Htr).
      split; [reflexivity|]. split.
      { intros l' Hl'. apply elem_of_cons in Hl' as [->|?]; [rewrite Hx; eauto|auto]. }
      auto.
Qed.


Lemma reader_inv {A} (m : M A) w o w' :
  preserves_world m → m w = (o, w') → w' = w.
Proof. intros F H. specialize (F w). rewrite H in F. exact F. Qed.

Lemma calculate_effective_returns_inv ls pen w out w' :
  calculate_effective_returns ls pen w = (Return out, w') →
  out = ls ∧ for_each ls (process_initiative pen) w = (Return tt, w').
Proof.
  unfold calculate_effective_returns. intros H.
  apply bind_inv in H as ([] & w1 & Hloop & H). injection H as <- <-. auto.
Qed.

Lemma select_loop_frame x ls acc w o w' :
  select_loop x ls acc w = (o, w') → w' = w.
Proof.
  apply reader_inv. revert acc.
  assert (Hadd : ∀ i names tr, preserves_world (add_returns i names tr)).
  { intros i names. induction names as [|s names IH]; intros tr; simpl; frame. }
  induction ls as [|l ls IH]; intros acc; [simpl; frame|].
  rewrite select_loop_cons. apply preserves_world_bind; [frame|]. intros ini.
  destruct (x (Select (ini_id ini))); [|frame].
  destruct (Qgt_bool q (1 # 2)); [|apply IH].
  apply preserves_world_bind; [apply Hadd|]. intros tr. apply IH.
Qed.

(** Every returning run of the pipeline leaves through one of the four
    exits. *)
Lemma solve_exit cbc data B thr floor pen w r w' :
  solve_minimax_regret_optimization cbc data B thr floor pen w = (Return r, w') →
  exit cbc data B thr floor pen w r w'.
Proof.
  unfold solve_minimax_regret_optimization. intros H.
  rewrite (bind_return _ _ _ _ _ (filter_eligible_eq thr data w)) in H.
  destruct (eligible thr (objects w) data) as [|l0 ls0] eqn:Helig.
  { injection H as <- <-. apply exit_no_eligible; [assumption|reflexivity..]. }
  rewrite <- Helig in *. clear Helig l0 ls0.
  set (elig := eligible thr (objects w) data) in *.
  apply bind_inv in H as (processed & w1 & Hcer & H).
  destruct (calculate_effective_returns_inv _ _ _ _ _ Hcer) as [-> _].
  apply bind_inv in H as (V & w2 & Hcosr & H).
  destruct (any_neg_inf V) eqn:Hany.
  { injection H as <- <-. eapply exit_ideal_error; eauto. }
  apply bind_inv in H as (cs & w3 & Hcs & H).
  apply regret_constraints_inv in Hcs as (-> & -> & _ & _).
  apply bind_inv in H as (blhs & w3 & Hb & H).
  apply lpSum_select_inv in Hb as (-> & -> & _).
  apply bind_inv in H as (flhs & w3 & Hf & H).
  apply lpSum_select_inv in Hf as (-> & -> & _).
  rewrite (bind_return _ _ _ _ _ (solve_eq cbc _ w2)) in H.
  change (minimax_problem (map (regret_constraint_of (objects w2) elig V) scenarios)
            (terms_of (objects w2) (or_zero (λ i, Return (cost i))) elig)
            (terms_of (objects w2) (or_zero (λ i, Return (R_worst i))) elig) B floor)
    with (main_problem_of (objects w2) elig V B floor) in H.
  set (prob := main_problem_of (objects w2) elig V B floor) in *.
  assert (Hprob : prob = main_problem_of (objects w2) elig V B floor) by reflexivity.
  destruct (cbc (solver_calls w2) prob) as [msg|st vals] eqn:Hreply; simpl in H.
  { injection H as <- <-. eapply exit_main_error; eauto. }
  apply bind_inv in H as (acc & w3 & Hacc & H).
  apply bind_inv in H as (regrets & w4 & Hreg & H).
  injection H as <- <-.
  destruct (bool_decide (st = LpStatusOptimal)) eqn:Hopt.
  - pose proof (select_loop_frame _ _ _ _ _ _ Hacc) as ->.
    injection Hreg as Hreg <-.
    eapply exit_main_solved; eauto.
    + rewrite Hopt. split; [exact Hacc|exact Hreg].
    + rewrite Hopt. fold prob.
      change [(Max_Regret, 1%Q)] with (objective prob).
      rewrite value_objective. reflexivity.
  - injection Hacc as <- <-. injection Hreg as <- <-.
    eapply exit_main_solved; eauto.
    + rewrite Hopt. split; reflexivity.
    + rewrite Hopt. reflexivity.
Qed.

Lemma run_eta (run : outcome Result * world) :
  run.1 = Return (the_result run) → run = (Return (the_result run), run.2).
Proof. destruct run as [o w]. simpl. intros ->. reflexivity. Qed.

(** C3: when every listed initiative has a confidence in [0,1] (and the
    penalty model honours its contract there), [calculate_effective_returns]
    returns the list it was given and leaves, on each listed initiative,
    [gamma] set to the penalty weight [g] of its confidence and
    [effective_returns[s] = (1 - g) * raw[s] + g * raw[worst]] for the three
    scenarios, while the raw fields id, cost, confidence, R_best, R_med and
    R_worst are unchanged. *)
Theorem calculate_effective_returns_blend (pen : Q → outcome Q)
    (ls : list loc) (w : world) :
  penalty_contract pen →
  (∀ l, l ∈ ls → (0 <= confidence (objects w l))%Q ∧ (confidence (objects w l) <= 1)%Q) →
  ∃ w', calculate_effective_returns ls pen w = (Return ls, w')
    ∧ ∀ l, l ∈ ls →
        let before := objects w l in
        let after := objects w' l in
        ∃ g er,
          pen (confidence before) = Return g
          ∧ gamma after = Some g
          ∧ effective_returns after = Some er
          ∧ er !! "best" = Some ((1 - g) * R_best before + g * R_worst before)%Q
          ∧ er !! "med" = Some ((1 - g) * R_med before + g * R_worst before)%Q
          ∧ er !! "worst" = Some ((1 - g) * R_worst before + g * R_worst before)%Q
          ∧ ini_id after = ini_id before
          ∧ cost after = cost before
          ∧ confidence after = confidence before
          ∧ R_best after = R_best before
          ∧ R_med after = R_med before
          ∧ R_worst after = R_worst before.
Proof.
  intros Hpen Hconf.
  assert (Hret : ∀ l, l ∈ ls → returns (pen (confidence (objects w l)))).
  { intros l Hl. destruct (Hconf l Hl). apply Hpen; assumption. }
  destruct (for_each_process_return pen ls w Hret) as (w' & Hrun & _ & Hobj).
  exists w'. split.
  - unfold calculate_effective_returns. rewrite (bind_return _ _ _ _ _ Hrun). reflexivity.
  - intros l Hl. simpl. rewrite Hobj, decide_True by assumption.
    destruct (Hret l Hl) as [g Hg]. exists g, (blended g (objects w l)).
    unfold augment. rewrite Hg. repeat split; reflexivity.
Qed.

Lemma calculate_effective_returns_blend_witness :
  ∃ w', calculate_effective_returns [0; 1]%nat calculate_gamma example_world
        = (Return [0; 1]%nat, w')
    ∧ ∀ l, l ∈ [0; 1]%nat →
        ∃ g er,
          calculate_gamma (confidence (example_objects l)) = Return g
          ∧ gamma (objects w' l) = Some g
          ∧ effective_returns (objects w' l) = Some er
          ∧ er !! "best" = Some ((1 - g) * R_best (example_objects l)
                                 + g * R_worst (example_objects l))%Q
          ∧ er !! "med" = Some ((1 - g) * R_med (example_objects l)
                                + g * R_worst (example_objects l))%Q
          ∧ er !! "worst" = Some ((1 - g) * R_worst (example_objects l)
                                  + g * R_worst (example_objects l))%Q
          ∧ ini_id (objects w' l) = ini_id (example_objects l)
          ∧ cost (objects w' l) = cost (example_objects l)
          ∧ confidence (objects w' l) = confidence (example_objects l)
          ∧ R_best (objects w' l) = R_best (example_objects l)
          ∧ R_med (objects w' l) = R_med (example_objects l)
          ∧ R_worst (objects w' l) = R_worst (example_objects l).
Proof.
  apply (calculate_effective_returns_blend calculate_gamma [0; 1]%nat example_world).
  - exact calculate_gamma_penalty_contract.
  - intros l Hl. simpl.
    apply elem_of_cons in Hl as [->|Hl]; [split; discriminate|].
    apply elem_of_cons in Hl as [->|Hl]; [split; discriminate|].
    apply elem_of_nil in Hl as [].
Defined.

Lemma eligible_nil thr h data :
  (∀ l, l ∈ data → ¬ (thr <= confidence (h l))%Q) → eligible thr h data = [].
Proof.
  intros H. unfold eligible. induction data as [|l data IH]; [reflexivity|].
  simpl. destruct (Qle_bool thr (confidence (h l))) eqn:E.
  - apply Qle_bool_iff in E. destruct (H l); [left|assumption].
  - apply IH. intros l' Hl'. apply H. right. assumption.
Qed.

(** C4: when no initiative reaches the confidence threshold the pipeline
    returns the "No Eligible Initiatives" result (nothing selected, no
    minimax regret, cost 0, returns 0, empty [v_j_star] and regrets) and the
    world is unchanged: in particular no call to the back end is logged. *)
Theorem no_eligible_initiatives (cbc : solver) (data : list loc)
    (B thr floor : Q) (pen : Q → outcome Q) (w : world) :
  (∀ l, l ∈ data → ¬ (thr <= confidence (objects w l))%Q) →
  solve_minimax_regret_optimization cbc data B thr floor pen w
  = (Return {| status := "No Eligible Initiatives";
               min_max_regret := None;
               selected_initiatives := [];
               total_cost := 0;
               total_actual_returns :=
                 <["worst" := 0%Q]> (<["med" := 0%Q]> (<["best" := 0%Q]> ∅));
               v_j_star := ∅;
               regrets_for_selected_portfolio := ∅ |},
     w).
Proof.
  intros H. unfold solve_minimax_regret_optimization.
  rewrite (bind_return _ _ _ _ _ (filter_eligible_eq thr data w)).
  rewrite (eligible_nil _ _ _ H). reflexivity.
Qed.

Lemma no_eligible_initiatives_witness :
  solve_minimax_regret_optimization cbc_picks_A [2]%nat 15 (3 # 10) 40
    calculate_gamma example_world
  = (Return {| status := "No Eligible Initiatives";
               min_max_regret := None;
               selected_initiatives := [];
               total_cost := 0;
               total_actual_returns :=
                 <["worst" := 0%Q]> (<["med" := 0%Q]> (<["best" := 0%Q]> ∅));
               v_j_star := ∅;
               regrets_for_selected_portfolio := ∅ |},
     example_world).
Proof.
  apply (no_eligible_initiatives cbc_picks_A [2]%nat 15 (3 # 10) 40
           calculate_gamma example_world).
  intros l Hl. apply elem_of_cons in Hl as [->|Hl].
  - simpl. intros H. apply Qle_bool_iff in H. vm_compute in H. discriminate.
  - apply elem_of_nil in Hl as [].
Defined.


Lemma outcome_eta {A} (run : outcome A * world) (a : A) :
  run.1 = Return a → run = (Return a, run.2).
Proof. destruct run as [o w]. simpl. intros ->. reflexivity. Qed.


Lemma LpStatus_optimal st : LpStatus st = "Optimal" ↔ st = LpStatusOptimal.
Proof. split; [destruct st; (reflexivity || discriminate)|intros ->; reflexivity]. Qed.

(** C6, amended: the status of a returned result is "Optimal", "Not Solved",
    "Infeasible", "Unbounded", "Undefined", "No Eligible Initiatives",
    "Error in V_j_star calculation", or "Error solving main problem: "
    followed by the message of the exception. *)
Theorem status_is_produced (cbc : solver) (data : list loc)
    (B thr floor : Q) (pen : Q → outcome Q) (w w' : world) (r : Result) :
  solve_minimax_regret_optimization cbc data B thr floor pen w = (Return r, w') →
  produced_status (status r).
Proof.
  intros H. apply solve_exit in H.
  destruct H as [_ -> _ | w1 V _ _ _ -> | w1 w2 V prob msg _ _ _ _ _ _ ->
                | w1 w2 V prob st vals acc regrets _ _ _ _ _ _ _ ->]; simpl.
  - left. repeat constructor.
  - left. repeat constructor.
  - right. exists msg. reflexivity.
  - left. destruct st; repeat constructor.
Qed.


Lemma example_stopped_returns :
  example_stopped = (Return (the_result example_stopped), example_stopped.2).
Proof. apply run_eta. vm_compute. reflexivity. Qed.

Lemma example_stopped_status : status (the_result example_stopped) = "Not Solved".
Proof. vm_compute. reflexivity. Qed.

Lemma status_is_produced_witness :
  produced_status (status (the_result example_stopped)).
Proof.
  apply (status_is_produced cbc_stopped [0; 1; 2]%nat 15 (3 # 10) 40
           calculate_gamma example_world example_stopped.2).
  exact example_stopped_returns.
Defined.

(** C6, as stated, fails: when the back end is stopped on the main problem,
    PuLP reports [LpStatusNotSolved] and the result carries the status
    "Not Solved", which is none of Optimal, Infeasible, Unbounded, Undefined,
    No Eligible Initiatives or an Error. *)
Lemma status_not_listed :
  ∃ r w', solve_minimax_regret_optimization cbc_stopped [0; 1; 2]%nat 15 (3 # 10) 40
            calculate_gamma example_world = (Return r, w')
          ∧ status r = "Not Solved"
          ∧ ¬ listed_status (status r).
Proof.
  exists (the_result example_stopped), example_stopped.2.
  split; [exact example_stopped_returns|].
  split; [exact example_stopped_status|].
  rewrite example_stopped_status. intros [Hin|[detail Hd]].
  - repeat (apply elem_of_cons in Hin as [Hin|Hin]; [discriminate|]).
    apply elem_of_nil in Hin as [].
  - discriminate.
Qed.

(** C7: a returned result whose status is not "Optimal" has no selected
    initiative, no minimax regret, total cost 0, every per-scenario return 0
    and every per-scenario regret 0 or absent. *)
Theorem non_optimal_result_is_empty (cbc : solver) (data : list loc)
    (B thr floor : Q) (pen : Q → outcome Q) (w w' : world) (r : Result) :
  solve_minimax_regret_optimization cbc data B thr floor pen w = (Return r, w') →
  status r ≠ "Optimal" →
  selected_initiatives r = []
  ∧ min_max_regret r = None
  ∧ total_cost r = 0%Q
  ∧ (∀ s, s ∈ scenarios → total_actual_returns r !! s = Some 0%Q)
  ∧ (∀ s v, total_actual_returns r !! s = Some v → v = 0%Q)
  ∧ (∀ s v, regrets_for_selected_portfolio r !! s = Some v → v = finite 0).
Proof.
  intros H Hst. apply solve_exit in H.
  assert (Hzero : ∀ s, s ∈ scenarios → zero_returns !! s = Some 0%Q).
  { intros s Hs. unfold scenarios in Hs.
    repeat (apply elem_of_cons in Hs as [->|Hs]; [reflexivity|]).
    apply elem_of_nil in Hs as []. }
  assert (Hzero' : ∀ s v, zero_returns !! s = Some v → v = 0%Q).
  { intros s v. unfold zero_returns. rewrite !lookup_insert, lookup_empty.
    repeat case_decide; congruence. }
  destruct H as [_ -> _ | w1 V _ _ _ -> | w1 w2 V prob msg _ _ _ _ _ _ ->
                | w1 w2 V prob st vals acc regrets _ _ _ _ _ _ Hacc ->]; simpl.
  1-3: repeat split; try reflexivity; try assumption;
       intros s v; rewrite lookup_empty; discriminate.
  simpl in Hst. rewrite LpStatus_optimal in Hst.
  rewrite bool_decide_eq_false_2 in * by assumption.
  destruct Hacc as [-> ->]. simpl.
  repeat split; try reflexivity; try assumption.
  intros s v. unfold zero_regrets. rewrite !lookup_insert, lookup_empty.
  repeat case_decide; congruence.
Qed.

Lemma non_optimal_result_is_empty_witness :
  selected_initiatives (the_result example_stopped) = []
  ∧ min_max_regret (the_result example_stopped) = None
  ∧ total_cost (the_result example_stopped) = 0%Q
  ∧ (∀ s, s ∈ scenarios →
          total_actual_returns (the_result example_stopped) !! s = Some 0%Q)
  ∧ (∀ s v, total_actual_returns (the_result example_stopped) !! s = Some v → v = 0%Q)
  ∧ (∀ s v, regrets_for_selected_portfolio (the_result example_stopped) !! s = Some v →
            v = finite 0).
Proof.
  apply (non_optimal_result_is_empty cbc_stopped [0; 1; 2]%nat 15 (3 # 10) 40
           calculate_gamma example_world example_stopped.2).
  - exact example_stopped_returns.
  - rewrite example_stopped_status. discriminate.
Defined.

Lemma calculate_effective_returns_objects ls pen w w1 l :
  calculate_effective_returns ls pen w = (Return ls, w1) →
  objects w1 l = if decide (l ∈ ls) then augment pen (objects w l) else objects w l.
Proof.
  intros H. apply calculate_effective_returns_inv in H as [_ H].
  pose proof (for_each_process_inv pen ls w w1 H) as Hret.
  destruct (for_each_process_return pen ls w Hret) as (w1' & H' & _ & Ho).
  rewrite H in H'. injection H' as <-. apply Ho.
Qed.

Lemma calculate_optimal_scenario_returns_objects cbc ls B w o w' :
  calculate_optimal_scenario_returns cbc ls B w = (o, w') → objects w' = objects w.
Proof.
  intros H. pose proof (scenario_loop_frame cbc ls B scenarios ∅ w) as [Ho _].
  unfold calculate_optimal_scenario_returns in H. rewrite H in Ho. exact Ho.
Qed.

Lemma picked_ext x h h' ls :
  (∀ l, h' l = h l) → picked x h' ls = picked x h ls.
Proof.
  intros E. unfold picked. induction ls as [|l ls IH]; [reflexivity|].
  simpl. rewrite E, IH. reflexivity.
Qed.


Lemma zero_returns_lookup s : s ∈ scenarios → zero_returns !! s = Some 0%Q.
Proof.
  intros Hs. unfold scenarios in Hs.
  repeat (apply elem_of_cons in Hs as [->|Hs]; [reflexivity|]).
  apply elem_of_nil in Hs as [].
Qed.

Lemma main_problem_of_is_minimax h ls V B floor :
  is_minimax_problem (main_problem_of h ls V B floor).
Proof. repeat split. Qed.



Lemma eligible_filter thr h data :
  eligible thr h data = filter (λ l, (thr <= confidence (h l))%Q) data.
Proof.
  unfold eligible. induction data as [|l ls IH]; [reflexivity|].
  simpl. rewrite filter_cons, IH.
  destruct (decide (thr <= confidence (h l))%Q) as [H|H].
  - apply Qle_bool_iff in H. rewrite H. reflexivity.
  - destruct (Qle_bool thr (confidence (h l))) eqn:E; [|reflexivity].
    apply Qle_bool_iff in E. contradiction.
Qed.




Lemma example_optimal_returns :
  example_optimal = (Return (the_result example_optimal), example_optimal.2).
Proof. apply run_eta. vm_compute. reflexivity. Qed.



(** ** What the pipeline does to the caller's initiatives *)

Lemma keeps_objects_bind {A B} (m : M A) (f : A → M B) :
  keeps_objects m → (∀ a, keeps_objects (f a)) → keeps_objects (m ≫= f).
Proof.
  intros Hm Hf w. unfold mbind, M_bind. specialize (Hm w).
  destruct (m w) as [[e|a] w1]; simpl in *; [assumption|].
  rewrite Hf. assumption.
Qed.

Lemma keeps_objects_reader {A} (m : M A) : preserves_world m → keeps_objects m.
Proof. intros H w. rewrite H. reflexivity. Qed.

Lemma keeps_objects_after {A B} (m : M A) (f : A → M B) w :
  (∀ a, keeps_objects (f a)) → objects ((m ≫= f) w).2 = objects (m w).2.
Proof.
  intros Hf. unfold mbind, M_bind.
  destruct (m w) as [[e|a] w1]; simpl; [reflexivity|apply Hf].
Qed.

Lemma solve_keeps_objects cbc p : keeps_objects (solve cbc p).
Proof. intros w. rewrite solve_eq. reflexivity. Qed.

Lemma select_loop_keeps_objects x ls acc : keeps_objects (select_loop x ls acc).
Proof.
  intros w. destruct (select_loop x ls acc w) as [o w1] eqn:E.
  apply select_loop_frame in E as ->. reflexivity.
Qed.

Lemma calculate_optimal_scenario_returns_keeps_objects cbc ls B :
  keeps_objects (calculate_optimal_scenario_returns cbc ls B).
Proof. intros w. apply (scenario_loop_frame cbc ls B scenarios ∅ w). Qed.

(** Only [calculate_effective_returns] writes to the initiatives. *)
Lemma solve_objects cbc data B thr floor pen w :
  objects (solve_minimax_regret_optimization cbc data B thr floor pen w).2
  = objects (for_each (eligible thr (objects w) data) (process_initiative pen) w).2.
Proof.
  unfold solve_minimax_regret_optimization.
  rewrite (bind_return _ _ _ _ _ (filter_eligible_eq thr data w)).
  destruct (eligible thr (objects w) data) as [|l0 ls0] eqn:Helig; [reflexivity|].
  rewrite keeps_objects_after.
  - unfold calculate_effective_returns. rewrite keeps_objects_after; [reflexivity|].
    intros a. apply keeps_objects_reader. auto with frame.
  - intros processed.
    apply keeps_objects_bind;
      [apply calculate_optimal_scenario_returns_keeps_objects|]. intros V.
    destruct (any_neg_inf V); [apply keeps_objects_reader; auto with frame|].
    apply keeps_objects_bind;
      [apply keeps_objects_reader, regret_constraints_frame|]. intros cs.
    apply keeps_objects_bind; [apply keeps_objects_reader; auto with frame|].
    intros blhs.
    apply keeps_objects_bind; [apply keeps_objects_reader; auto with frame|].
    intros flhs.
    apply keeps_objects_bind; [apply solve_keeps_objects|]. intros [msg|sol].
    { apply keeps_objects_reader. auto with frame. }
    apply keeps_objects_bind.
    { destruct (bool_decide (prob_status sol = LpStatusOptimal));
        [apply select_loop_keeps_objects|apply keeps_objects_reader; auto with frame]. }
    intros acc. apply keeps_objects_bind.
    { destruct (bool_decide (prob_status sol = LpStatusOptimal));
        apply keeps_objects_reader; auto with frame. }
    intros regrets. apply keeps_objects_reader. auto with frame.
Qed.

Lemma elem_of_eligible thr h data l :
  l ∈ eligible thr h data ↔ l ∈ data ∧ (thr <= confidence (h l))%Q.
Proof.
  unfold eligible. rewrite !list_elem_of_In, filter_In, Qle_bool_iff. reflexivity.
Qed.

(** C10, amended: whatever the outcome of the pipeline, an initiative that is
    not in the input list with a confidence at or above the threshold is left
    exactly as it was; and when the penalty model returns on the confidence of
    every eligible initiative, each eligible initiative of the caller is
    augmented in place: its dict gains [gamma] and [effective_returns], all
    else unchanged. *)
Theorem only_eligible_initiatives_mutated (cbc : solver) (data : list loc)
    (B thr floor : Q) (pen : Q → outcome Q) (w : world) :
  let w' := (solve_minimax_regret_optimization cbc data B thr floor pen w).2 in
  (∀ l, ¬ (l ∈ data ∧ (thr <= confidence (objects w l))%Q) →
        objects w' l = objects w l)
  ∧ ((∀ l, l ∈ data → (thr <= confidence (objects w l))%Q →
           ∃ g, pen (confidence (objects w l)) = Return g) →
     ∀ l, l ∈ data → (thr <= confidence (objects w l))%Q →
       ∃ g, pen (confidence (objects w l)) = Return g
            ∧ objects w' l = augmented g (objects w l)
            ∧ gamma (objects w' l) = Some g
            ∧ effective_returns (objects w' l) = Some (blended g (objects w l))).
Proof.
  intros w'. subst w'. rewrite solve_objects. split.
  - intros l Hl.
    apply (for_each_process_frame pen (eligible thr (objects w) data) w).
    rewrite elem_of_eligible. assumption.
  - intros Hpen l Hl Hthr.
    assert (Hret : ∀ l, l ∈ eligible thr (objects w) data →
                        returns (pen (confidence (objects w l)))).
    { intros l' Hl'. apply elem_of_eligible in Hl' as [Hd Ht].
      apply Hpen; assumption. }
    destruct (for_each_process_return pen _ w Hret) as (w1 & Hrun & _ & Hobj).
    rewrite Hrun. simpl. rewrite Hobj.
    rewrite decide_True by (apply elem_of_eligible; auto).
    destruct (Hret l) as [g Hg]; [apply elem_of_eligible; auto|].
    exists g. unfold augment. rewrite Hg. repeat split; reflexivity || assumption.
Qed.

Lemma only_eligible_initiatives_mutated_witness :
  ∃ g, calculate_gamma (confidence (objects example_world 1%nat)) = Return g
       ∧ objects example_optimal.2 1%nat = augmented g (objects example_world 1%nat)
       ∧ gamma (objects example_optimal.2 1%nat) = Some g
       ∧ effective_returns (objects example_optimal.2 1%nat)
         = Some (blended g (objects example_world 1%nat)).
Proof.
  apply (proj2 (only_eligible_initiatives_mutated cbc_picks_A [0; 1; 2]%nat 15
                  (3 # 10) 40 calculate_gamma example_world)).
  - intros l Hl Hthr.
    repeat (apply elem_of_cons in Hl as [->|Hl]; [eexists; reflexivity|]).
    apply elem_of_nil in Hl as [].
  - right. left.
  - simpl. discriminate.
Defined.

(** C10, as stated, fails: with the initiatives A, B, C all above the
    threshold and the confidence of B at 3/2, the penalty model aborts the
    pass at B; the eligible initiative C, which comes after it, gains neither
    [gamma] nor [effective_returns]. *)
Lemma eligible_left_unaugmented :
  ¬ (∀ l, l ∈ [0; 1; 2]%nat →
          (1 # 10 <= confidence (objects example_bad_world l))%Q →
          is_Some (gamma (objects example_aborted.2 l))
          ∧ is_Some (effective_returns (objects example_aborted.2 l))).
Proof.
  intros H. destruct (H 2%nat) as [[g Hg] _].
  - repeat constructor.
  - simpl. discriminate.
  - vm_compute in Hg. discriminate.
Qed.

(** C9, violated by the code: with the all-zero initiative Z eligible beside
    A, and a back end that reports Optimal, the selection loop compares the
    unassigned [varValue] of Z's variable with 0.5 and the pipeline raises
    [TypeError] to its caller, although every confidence lies in [0,1]. *)
Theorem unassigned_variable_raises :
  example_degenerate.1
  = Raise (TypeError "'>' not supported between instances of 'NoneType' and 'float'").
Proof. vm_compute. reflexivity. Qed.

(** ** Budget zero *)

Lemma fold_terms_ge (vals : LpVariable → Q) ts : ∀ s,
  (∀ t, t ∈ ts → (0 <= vals t.1 * t.2)%Q) →
  (s <= fold_left (λ s t, (s + vals t.1 * t.2)%Q) ts s)%Q.
Proof.
  induction ts as [|t ts IH]; intros s H; simpl; [lra|].
  assert (0 <= vals t.1 * t.2)%Q by (apply H; left).
  assert (s + vals t.1 * t.2 <=
          fold_left (λ s t, (s + vals t.1 * t.2)%Q) ts (s + vals t.1 * t.2))%Q
    by (apply IH; intros; apply H; right; assumption).
  lra.
Qed.

Lemma fold_terms_zero (vals : LpVariable → Q) ts : ∀ s,
  (∀ t, t ∈ ts → (vals t.1 == 0)%Q) →
  (fold_left (λ s t, (s + vals t.1 * t.2)%Q) ts s == s)%Q.
Proof.
  induction ts as [|t ts IH]; intros s H; simpl; [reflexivity|].
  rewrite IH by (intros; apply H; right; assumption).
  rewrite (H t) by left. ring.
Qed.

Lemma binary_term_nonneg (v c : Q) :
  (v == 0)%Q ∨ (v == 1)%Q → (0 < c)%Q → (0 <= v * c)%Q.
Proof. intros [->| ->] Hc; lra. Qed.

Lemma nothing_affordable (vals : LpVariable → Q) ts : ∀ s,
  (∀ t, t ∈ ts → ((vals t.1 == 0)%Q ∨ (vals t.1 == 1)%Q) ∧ (0 < t.2)%Q) →
  (0 <= s)%Q →
  (fold_left (λ s t, (s + vals t.1 * t.2)%Q) ts s <= 0)%Q →
  ∀ t, t ∈ ts → (vals t.1 == 0)%Q.
Proof.
  induction ts as [|t0 ts IH]; intros s Hts Hs Hle t Ht.
  - apply elem_of_nil in Ht as [].
  - simpl in Hle. destruct (Hts t0) as [Hb Hc]; [left|].
    pose proof (binary_term_nonneg _ _ Hb Hc) as Hnn.
    assert (Hge : (s + vals t0.1 * t0.2 <=
                   fold_left (λ s t, (s + vals t.1 * t.2)%Q) ts
                     (s + vals t0.1 * t0.2))%Q).
    { apply fold_terms_ge. intros t' Ht'. destruct (Hts t') as [Hb' Hc']; [right; assumption|].
      apply binary_term_nonneg; assumption. }
    apply elem_of_cons in Ht as [->|Ht].
    + destruct Hb as [Hb|Hb]; [assumption|].
      assert (Hv : (vals t0.1 * t0.2 == t0.2)%Q) by (rewrite Hb; ring).
      lra.
    + apply (IH (s + vals t0.1 * t0.2)%Q); try assumption; [|lra].
      intros t' Ht'. apply Hts. right. assumption.
Qed.

Lemma terms_of_elem h c ls l :
  l ∈ ls → ¬ (c (h l) == 0)%Q → (Select (ini_id (h l)), c (h l)) ∈ terms_of h c ls.
Proof.
  intros Hl Hc. unfold terms_of. apply list_elem_of_In, in_flat_map.
  exists l. split; [apply list_elem_of_In; assumption|].
  unfold times. destruct (Qeq_bool (c (h l)) 0) eqn:E.
  - apply Qeq_bool_iff in E. contradiction.
  - left. reflexivity.
Qed.

Lemma scenario_value_optimal p vals :
  scenario_value p (SolverDone LpStatusOptimal vals) = finite (eval vals (objective p)).
Proof. reflexivity. Qed.

(** With strictly positive costs and no budget, every feasible selection is
    empty and is worth nothing. *)
Lemma zero_budget_feasible_value h ls s vals :
  (∀ l, l ∈ ls → (0 < cost (h l))%Q) →
  feasible (scenario_problem_of h ls 0 s) vals →
  (eval vals (objective (scenario_problem_of h ls 0 s)) == 0)%Q.
Proof.
  intros Hcost (Hbin & _ & Hcs).
  apply Forall_cons in Hcs as [Hbudget _]. unfold holds in Hbudget. simpl in Hbudget.
  assert (Hnone : ∀ t, t ∈ terms_of h cost ls → (vals t.1 == 0)%Q).
  { apply (nothing_affordable vals (terms_of h cost ls) 0%Q); [|lra|exact Hbudget].
    intros t Ht. pose proof Ht as Ht'. apply terms_of_vars in Ht as (l & Hl & ->). split.
    - apply Hbin. unfold variables. apply elem_of_app. right. simpl.
      rewrite app_nil_r. apply list_elem_of_fmap.
      exists (Select (ini_id (h l)), cost (h l)). split; [reflexivity|assumption].
    - apply Hcost. assumption. }
  unfold eval. simpl. apply fold_terms_zero.
  intros t Ht. apply terms_of_vars in Ht as (l & Hl & ->). simpl.
  apply (Hnone (Select (ini_id (h l)), cost (h l))).
  apply terms_of_elem; [assumption|].
  specialize (Hcost l Hl). lra.
Qed.

(** ** Objectives with a term *)

Lemma stored_effective_return s i :
  (∃ er, effective_returns i = Some er ∧ is_Some (er !! s)) →
  returns (effective_return s i).
Proof.
  intros (er & Her & q & Hq). exists q.
  unfold effective_return, getitem. rewrite Her, Hq. reflexivity.
Qed.

Lemma stored_returns_of s i er q :
  effective_returns i = Some er → er !! s = Some q → returns_of s i = q.
Proof.
  intros Her Hq. unfold returns_of, or_zero, effective_return, getitem.
  rewrite Her, Hq. reflexivity.
Qed.

(** A non-zero stored effective return gives the scenario objective a term. *)
Lemma objective_nonempty h ls B s :
  (∃ l er q, l ∈ ls ∧ effective_returns (h l) = Some er
             ∧ er !! s = Some q ∧ ¬ (q == 0)%Q) →
  objective (scenario_problem_of h ls B s) ≠ [].
Proof.
  intros (l & er & q & Hl & Her & Hq & Hnz) E.
  assert (Hin : (Select (ini_id (h l)), returns_of s (h l))
                ∈ terms_of h (returns_of s) ls).
  { apply terms_of_elem; [assumption|].
    rewrite (stored_returns_of s (h l) er q Her Hq). assumption. }
  change (objective (scenario_problem_of h ls B s))
    with (terms_of h (returns_of s) ls) in E.
  rewrite E in Hin. apply elem_of_nil in Hin as [].
Qed.

(** C8, amended: when every listed initiative carries its effective returns
    and has a strictly positive cost, every scenario has a listed initiative
    with a non-zero effective return, the budget is 0 and the back end
    reports a feasible selection as Optimal for each scenario problem,
    [calculate_optimal_scenario_returns] returns a scenario ideal value equal
    to 0 for every scenario. *)
Theorem zero_budget_ideal_is_zero (cbc : solver) (ls : list loc) (w : world) :
  (∀ l s, l ∈ ls → s ∈ ["best"; "med"; "worst"] →
     ∃ er, effective_returns (objects w l) = Some er ∧ is_Some (er !! s)) →
  (∀ s, s ∈ ["best"; "med"; "worst"] →
     ∃ l er q, l ∈ ls ∧ effective_returns (objects w l) = Some er
               ∧ er !! s = Some q ∧ ¬ (q == 0)%Q) →
  (∀ l, l ∈ ls → (0 < cost (objects w l))%Q) →
  (∀ hist s, s ∈ ["best"; "med"; "worst"] →
     ∃ vals, cbc hist (scenario_problem_of (objects w) ls 0 s)
             = SolverDone LpStatusOptimal vals
             ∧ feasible (scenario_problem_of (objects w) ls 0 s) vals) →
  ∃ V w', calculate_optimal_scenario_returns cbc ls 0 w = (Return V, w')
          ∧ ∀ s, s ∈ ["best"; "med"; "worst"] → ∃ v, V !! s = Some (finite v) ∧ (v == 0)%Q.
Proof.
  intros Hstored Hnz Hcost Hcbc.
  destruct (scenario_loop_return cbc ls 0 scenarios ∅ w)
    as (V & w' & Hrun & _ & _ & _ & Hin).
  { intros l s Hl Hs. apply stored_effective_return, Hstored; assumption. }
  { intros s Hs. apply objective_nonempty, Hnz. assumption. }
  exists V, w'. split; [exact Hrun|].
  intros s Hs. destruct (Hin s Hs) as [hist HV].
  destruct (Hcbc hist s Hs) as (vals & Hreply & Hfeas).
  rewrite Hreply, scenario_value_optimal in HV.
  eexists. split; [exact HV|].
  apply zero_budget_feasible_value; assumption.
Qed.

Lemma pick_binary ks theta k :
  (pick ks theta (Select k) == 0)%Q ∨ (pick ks theta (Select k) == 1)%Q.
Proof. simpl. destruct (bool_decide (k ∈ ks)); [right|left]; reflexivity. Qed.

Lemma example_processed_stored l s :
  l ∈ [0; 1]%nat → s ∈ scenarios →
  ∃ er, effective_returns (objects example_processed.2 l) = Some er
        ∧ is_Some (er !! s).
Proof.
  intros Hl Hs. unfold scenarios in Hs.
  repeat (apply elem_of_cons in Hl as [->|Hl];
          [repeat (apply elem_of_cons in Hs as [->|Hs];
                   [eexists; split; [vm_compute; reflexivity|];
                    vm_compute; eexists; reflexivity|]);
           apply elem_of_nil in Hs as []|]).
  apply elem_of_nil in Hl as [].
Qed.

Lemma example_processed_nonzero s :
  s ∈ scenarios →
  ∃ l er q, l ∈ [0; 1]%nat
            ∧ effective_returns (objects example_processed.2 l) = Some er
            ∧ er !! s = Some q ∧ ¬ (q == 0)%Q.
Proof.
  intros Hs. unfold scenarios in Hs. exists 0%nat.
  repeat (apply elem_of_cons in Hs as [->|Hs];
          [eexists _, _; split; [left|];
           split; [vm_compute; reflexivity|];
           split; [vm_compute; reflexivity|discriminate]|]).
  apply elem_of_nil in Hs as [].
Qed.

Lemma zero_budget_ideal_is_zero_witness :
  ∃ V w', calculate_optimal_scenario_returns cbc_picks_none [0; 1]%nat 0
            example_processed.2 = (Return V, w')
          ∧ ∀ s, s ∈ ["best"; "med"; "worst"] → ∃ v, V !! s = Some (finite v) ∧ (v == 0)%Q.
Proof.
  apply (zero_budget_ideal_is_zero cbc_picks_none [0; 1]%nat example_processed.2).
  - exact example_processed_stored.
  - exact example_processed_nonzero.
  - intros l Hl.
    repeat (apply elem_of_cons in Hl as [->|Hl]; [vm_compute; reflexivity|]).
    apply elem_of_nil in Hl as [].
  - intros hist s Hs. exists (pick [] 0). split; [reflexivity|].
    split; [intros k _; apply pick_binary|]. split; [simpl; lra|].
    unfold scenarios in Hs.
    repeat (apply elem_of_cons in Hs as [->|Hs];
            [constructor; [vm_compute; discriminate|constructor]|]).
    apply elem_of_nil in Hs as [].
Defined.

Lemma single_item_optimal p k r vals :
  sense p = LpMaximize →
  objective p = [(Select k, r)] →
  (0 <= r)%Q →
  (vals (Select k) == 1)%Q →
  feasible p vals →
  optimal p vals.
Proof.
  intros Hsense Hobj Hr Hk Hfeas. split; [assumption|].
  intros vals' (Hbin & _). rewrite Hsense, Hobj. unfold eval. simpl.
  rewrite Hk. destruct (Hbin k) as [H|H].
  - unfold variables. rewrite Hobj. left.
  - rewrite H. lra.
  - rewrite H. lra.
Qed.

Lemma free_world_effective l s :
  l ∈ [0]%nat → s ∈ scenarios → returns (effective_return s (objects free_world l)).
Proof.
  intros Hl Hs. unfold scenarios in Hs.
  repeat (apply elem_of_cons in Hl as [->|Hl];
          [repeat (apply elem_of_cons in Hs as [->|Hs];
                   [vm_compute; eexists; reflexivity|]);
           apply elem_of_nil in Hs as []|]).
  apply elem_of_nil in Hl as [].
Qed.

Lemma cbc_picks_F_solves_scenarios :
  solves_scenarios cbc_picks_F (objects free_world) [0]%nat 0.
Proof.
  intros hist s Hs. exists (pick ["F"] 0). split; [reflexivity|].
  unfold scenarios in Hs.
  repeat (apply elem_of_cons in Hs as [->|Hs];
    [eapply (single_item_optimal _ "F");
       [reflexivity
       |vm_compute; reflexivity
       |vm_compute; discriminate
       |reflexivity
       |split; [intros k _; apply pick_binary|];
        split; [simpl; lra|];
        constructor; [vm_compute; discriminate|constructor]]|]).
  apply elem_of_nil in Hs as [].
Qed.

Lemma free_ideals_best :
  ∃ q, the_ideals free_ideals !! "best" = Some (finite q) ∧ ¬ (q == 0)%Q.
Proof.
  vm_compute. eexists. split; [reflexivity|]. discriminate.
Qed.

(** C8, as stated, fails: an initiative that costs nothing is affordable
    with budget 0, and an exact back end selects it, so that the ideal value
    of the best scenario is its return, not 0. *)
Lemma zero_budget_claim_fails : ¬ zero_budget_claim.
Proof.
  intros Hclaim.
  destruct (Hclaim cbc_picks_F [0]%nat free_world) as (V & w' & Hrun & HV).
  - exact free_world_effective.
  - intros l Hl. apply elem_of_cons in Hl as [->|Hl]; [vm_compute; discriminate|].
    apply elem_of_nil in Hl as [].
  - exact cbc_picks_F_solves_scenarios.
  - destruct (HV "best") as (v & Hv & Hzero); [left|].
    destruct free_ideals_best as (q & Hq & Hne).
    unfold the_ideals, free_ideals in Hq. rewrite Hrun in Hq. simpl in Hq.
    rewrite Hv in Hq. injection Hq as <-. contradiction.
Qed.

(** * Part III: further properties of the code *)

(** ** The penalty model and the blend *)

Lemma calculate_effective_returns_return pen ls w :
  (∀ l, l ∈ ls → returns (pen (confidence (objects w l)))) →
  ∃ w', calculate_effective_returns ls pen w = (Return ls, w')
        ∧ solver_calls w' = solver_calls w
        ∧ ∀ l, objects w' l =
               if decide (l ∈ ls) then augment pen (objects w l) else objects w l.
Proof.
  intros Hret.
  destruct (for_each_process_return pen ls w Hret) as (w' & Hrun & Hc & Ho).
  exists w'. split; [|auto].
  unfold calculate_effective_returns. rewrite (bind_return _ _ _ _ _ Hrun). reflexivity.
Qed.

Lemma confidence_in_range_returns (ls : list loc) (w : world) :
  (∀ l, l ∈ ls →
        (0 <= confidence (objects w l))%Q ∧ (confidence (objects w l) <= 1)%Q) →
  ∀ l, l ∈ ls → calculate_gamma (confidence (objects w l))
                = Return (1 - confidence (objects w l))%Q.
Proof. intros H l Hl. destruct (H l Hl). apply calculate_gamma_in_range; assumption. Qed.

(** X1: the default penalty model reverses the order of confidences in
    [0,1]: the higher the confidence, the lower the penalty weight. *)
Theorem calculate_gamma_antitone (c1 c2 : Q) :
  (0 <= c1)%Q → (c1 <= c2)%Q → (c2 <= 1)%Q →
  ∃ g1 g2,
    calculate_gamma c1 = Return g1
    ∧ calculate_gamma c2 = Return g2
    ∧ (g2 <= g1)%Q.
Proof.
  intros H0 H12 H1.
  exists (1 - c1)%Q, (1 - c2)%Q.
  split; [apply calculate_gamma_in_range; lra|].
  split; [apply calculate_gamma_in_range; lra|lra].
Qed.

Lemma calculate_gamma_antitone_witness :
  ∃ g1 g2,
    calculate_gamma (1 # 5) = Return g1
    ∧ calculate_gamma (1 # 2) = Return g2
    ∧ (g2 <= g1)%Q.
Proof.
  apply (calculate_gamma_antitone (1 # 5) (1 # 2)); discriminate.
Defined.

(** X3: with the default penalty model, an initiative of confidence 1 keeps
    its raw returns as effective returns, and an initiative of confidence 0
    has all three effective returns equal to its raw worst return. *)
Theorem effective_returns_extremes (ls : list loc) (w : world) :
  (∀ l, l ∈ ls →
        (confidence (objects w l) == 0)%Q ∨ (confidence (objects w l) == 1)%Q) →
  ∃ w', calculate_effective_returns ls calculate_gamma w = (Return ls, w')
    ∧ ∀ l, l ∈ ls →
        ∃ er b m t,
          effective_returns (objects w' l) = Some er
          ∧ er !! "best" = Some b ∧ er !! "med" = Some m ∧ er !! "worst" = Some t
          ∧ ((confidence (objects w l) == 1)%Q →
             (b == R_best (objects w l))%Q ∧ (m == R_med (objects w l))%Q
             ∧ (t == R_worst (objects w l))%Q)
          ∧ ((confidence (objects w l) == 0)%Q →
             (b == R_worst (objects w l))%Q ∧ (m == R_worst (objects w l))%Q
             ∧ (t == R_worst (objects w l))%Q).
Proof.
  intros Hconf.
  assert (Hrange : ∀ l, l ∈ ls →
            (0 <= confidence (objects w l))%Q ∧ (confidence (objects w l) <= 1)%Q).
  { intros l Hl. destruct (Hconf l Hl) as [H|H]; rewrite H; split; discriminate. }
  pose proof (confidence_in_range_returns ls w Hrange) as Hg.
  destruct (calculate_effective_returns_return calculate_gamma ls w)
    as (w' & Hrun & _ & Hobj).
  { intros l Hl. eexists. apply Hg. assumption. }
  exists w'. split; [exact Hrun|]. intros l Hl.
  rewrite Hobj, decide_True by assumption. unfold augment. rewrite (Hg l Hl).
  eexists _, _, _, _. split; [reflexivity|].
  split; [reflexivity|]. split; [reflexivity|]. split; [reflexivity|].
  unfold blend. split; intros ->; repeat split; ring.
Qed.

Lemma effective_returns_extremes_witness :
  ∃ w', calculate_effective_returns [0; 3]%nat calculate_gamma example_world
        = (Return [0; 3]%nat, w')
    ∧ ∀ l, l ∈ [0; 3]%nat →
        ∃ er b m t,
          effective_returns (objects w' l) = Some er
          ∧ er !! "best" = Some b ∧ er !! "med" = Some m ∧ er !! "worst" = Some t
          ∧ ((confidence (objects example_world l) == 1)%Q →
             (b == R_best (objects example_world l))%Q
             ∧ (m == R_med (objects example_world l))%Q
             ∧ (t == R_worst (objects example_world l))%Q)
          ∧ ((confidence (objects example_world l) == 0)%Q →
             (b == R_worst (objects example_world l))%Q
             ∧ (m == R_worst (objects example_world l))%Q
             ∧ (t == R_worst (objects example_world l))%Q).
Proof.
  apply (effective_returns_extremes [0; 3]%nat example_world).
  intros l Hl. simpl.
  repeat (apply elem_of_cons in Hl as [->|Hl]; [right; reflexivity|]).
  apply elem_of_nil in Hl as [].
Defined.

(** ** Repeated and interrupted runs of [calculate_effective_returns] *)

(** X4: running [calculate_effective_returns] again on the list it returned
    succeeds and changes no initiative: the derived fields depend on the raw
    fields only. *)
Theorem calculate_effective_returns_idempotent (pen : Q → outcome Q)
    (ls : list loc) (w w1 : world) :
  calculate_effective_returns ls pen w = (Return ls, w1) →
  ∃ w2, calculate_effective_returns ls pen w1 = (Return ls, w2)
        ∧ ∀ l, objects w2 l = objects w1 l.
Proof.
  intros H.
  assert (Ho1 : ∀ l, objects w1 l =
            if decide (l ∈ ls) then augment pen (objects w l) else objects w l)
    by (intros l; apply calculate_effective_returns_objects; exact H).
  apply calculate_effective_returns_inv in H as [_ Hloop].
  pose proof (for_each_process_inv pen ls w w1 Hloop) as Hret.
  assert (Hret1 : ∀ l, l ∈ ls → returns (pen (confidence (objects w1 l)))).
  { intros l Hl. rewrite Ho1, decide_True by assumption.
    rewrite augment_confidence. apply Hret. assumption. }
  destruct (calculate_effective_returns_return pen ls w1 Hret1) as (w2 & Hrun2 & _ & Ho2).
  exists w2. split; [exact Hrun2|]. intros l. rewrite Ho2.
  destruct (decide (l ∈ ls)) as [Hl|Hl]; [|reflexivity].
  rewrite Ho1, decide_True by assumption. apply augment_idem.
Qed.

Lemma example_processed_returns :
  example_processed = (Return [0; 1]%nat, example_processed.2).
Proof. apply (outcome_eta example_processed). vm_compute. reflexivity. Qed.

Lemma calculate_effective_returns_idempotent_witness :
  ∃ w2, calculate_effective_returns [0; 1]%nat calculate_gamma example_processed.2
        = (Return [0; 1]%nat, w2)
        ∧ ∀ l, objects w2 l = objects example_processed.2 l.
Proof.
  apply (calculate_effective_returns_idempotent calculate_gamma [0; 1]%nat
           example_world).
  exact example_processed_returns.
Defined.

Lemma for_each_app {A} (xs ys : list A) (body : A → M unit) w :
  for_each (xs ++ ys) body w = (for_each xs body;; for_each ys body) w.
Proof.
  revert w. induction xs as [|x xs IH]; intros w; [reflexivity|].
  simpl. unfold mbind, M_bind. destruct (body x w) as [[e|[]] w1]; [reflexivity|].
  apply IH.
Qed.

(** X5: when the penalty model rejects the confidence of an initiative, the
    exception leaves [calculate_effective_returns] at once: the initiatives
    listed before it have been augmented, and that initiative and every other
    one are exactly as they were. *)
Theorem calculate_effective_returns_abort (pen : Q → outcome Q)
    (done : list loc) (l : loc) (rest : list loc) (w : world) (e : exn) :
  (∀ x, x ∈ done → returns (pen (confidence (objects w x)))) →
  pen (confidence (objects w l)) = Raise e →
  ∃ w', calculate_effective_returns (done ++ l :: rest) pen w = (Raise e, w')
        ∧ solver_calls w' = solver_calls w
        ∧ ∀ x, objects w' x =
               if decide (x ∈ done) then augment pen (objects w x) else objects w x.
Proof.
  intros Hdone Hl.
  destruct (for_each_process_return pen done w Hdone) as (w1 & Hrun & Hc & Ho).
  exists w1. split; [|split; assumption].
  unfold calculate_effective_returns.
  apply bind_raise. rewrite for_each_app. rewrite (bind_return _ _ _ _ _ Hrun).
  simpl. apply bind_raise. apply process_initiative_raise.
  rewrite Ho. destruct (decide (l ∈ done)); [|assumption].
  rewrite augment_confidence. assumption.
Qed.

Lemma calculate_effective_returns_abort_witness :
  ∃ w', calculate_effective_returns ([0] ++ 1 :: [2])%nat
          (λ c, if Qle_bool 1 c then Return 0%Q else Raise (ValueError "low"))
          example_world
        = (Raise (ValueError "low"), w')
        ∧ solver_calls w' = solver_calls example_world
        ∧ ∀ x, objects w' x =
               if decide (x ∈ [0]%nat)
               then augment (λ c, if Qle_bool 1 c then Return 0%Q
                                  else Raise (ValueError "low"))
                      (objects example_world x)
               else objects example_world x.
Proof.
  apply (calculate_effective_returns_abort
           (λ c, if Qle_bool 1 c then Return 0%Q else Raise (ValueError "low"))
           [0]%nat 1%nat [2]%nat example_world (ValueError "low")).
  - intros x Hx. apply elem_of_cons in Hx as [->|Hx]; [eexists; reflexivity|].
    apply elem_of_nil in Hx as [].
  - reflexivity.
Defined.

Lemma for_each_process_raises pen ls : ∀ w,
  (∃ l, l ∈ ls ∧ raises (pen (confidence (objects w l)))) →
  ∃ e w', for_each ls (process_initiative pen) w = (Raise e, w')
          ∧ solver_calls w' = solver_calls w
          ∧ ∃ l, l ∈ ls ∧ pen (confidence (objects w l)) = Raise e.
Proof.
  induction ls as [|l0 ls IH]; intros w (l & Hl & Hraise).
  - apply elem_of_nil in Hl as [].
  - simpl. destruct (pen (confidence (objects w l0))) as [e|g] eqn:Hg.
    + exists e, w. rewrite (bind_raise _ _ _ _ _ (process_initiative_raise pen l0 w e Hg)).
      split; [reflexivity|]. split; [reflexivity|]. exists l0. split; [left|assumption].
    + destruct (process_initiative_return pen l0 w g Hg) as (w1 & H1 & Hc1 & Ho1).
      rewrite (bind_return _ _ _ _ _ H1).
      assert (Hconf : ∀ x, confidence (objects w1 x) = confidence (objects w x)).
      { intros x. rewrite Ho1. destruct (decide (x = l0)) as [->|_]; reflexivity. }
      apply elem_of_cons in Hl as [->|Hl].
      { destruct Hraise as [e He]. congruence. }
      destruct (IH w1) as (e & w' & Hrun & Hc & l' & Hl' & He).
      { exists l. split; [assumption|]. rewrite Hconf. assumption. }
      exists e, w'. split; [assumption|]. split; [congruence|].
      exists l'. split; [right; assumption|]. rewrite <- Hconf. assumption.
Qed.

(** X6: when an eligible initiative has a confidence outside [0,1], the
    pipeline with the default penalty model raises [ValueError] before any
    problem is submitted to the back end; a confidence outside [0,1] on an
    initiative below the threshold is never looked at. *)
Theorem out_of_range_confidence_aborts (cbc : solver) (data : list loc)
    (B thr floor : Q) (w : world) (l : loc) :
  l ∈ data →
  (thr <= confidence (objects w l))%Q →
  ¬ ((0 <= confidence (objects w l))%Q ∧ (confidence (objects w l) <= 1)%Q) →
  ∃ w', solve_minimax_regret_optimization cbc data B thr floor calculate_gamma w
        = (Raise (ValueError "Confidence score must be between 0 and 1."), w')
        ∧ solver_calls w' = solver_calls w.
Proof.
  intros Hl Hthr Hout.
  assert (Hin : l ∈ eligible thr (objects w) data) by (apply elem_of_eligible; auto).
  destruct (for_each_process_raises calculate_gamma (eligible thr (objects w) data) w)
    as (e & w' & Hrun & Hc & l' & _ & He).
  { exists l. split; [assumption|]. eexists.
    apply calculate_gamma_out_of_range. assumption. }
  assert (e = ValueError "Confidence score must be between 0 and 1.") as ->.
  { unfold calculate_gamma in He.
    destruct (negb (between 0 (confidence (objects w l')) 1)); congruence. }
  exists w'. split; [|assumption].
  unfold solve_minimax_regret_optimization.
  rewrite (bind_return _ _ _ _ _ (filter_eligible_eq thr data w)).
  destruct (eligible thr (objects w) data) as [|l0 ls0] eqn:Helig.
  { apply elem_of_nil in Hin as []. }
  apply bind_raise. unfold calculate_effective_returns. apply bind_raise. exact Hrun.
Qed.

Lemma out_of_range_confidence_aborts_witness :
  ∃ w', solve_minimax_regret_optimization cbc_picks_A [0; 1; 2]%nat 15 (-(3)) 40
          calculate_gamma
          {| objects := λ l, match l with
                             | 1%nat => new_initiative "B" 10 (3 # 2) 90 60 40
                             | _ => example_objects l
                             end;
             solver_calls := [] |}
        = (Raise (ValueError "Confidence score must be between 0 and 1."), w')
        ∧ solver_calls w' = [].
Proof.
  apply (out_of_range_confidence_aborts cbc_picks_A [0; 1; 2]%nat 15 (-(3)) 40
           {| objects := λ l, match l with
                              | 1%nat => new_initiative "B" 10 (3 # 2) 90 60 40
                              | _ => example_objects l
                              end;
              solver_calls := [] |} 1%nat).
  - right. left.
  - simpl. discriminate.
  - simpl. intros [_ H]. apply H. reflexivity.
Defined.

(** ** The scenario-ideal solves *)

Lemma scenario_value_neg_inf p r :
  scenario_value p r = neg_inf ↔ ¬ ∃ vals, r = SolverDone LpStatusOptimal vals.
Proof.
  split.
  - intros H (vals & ->). discriminate.
  - intros H. destruct r as [msg|st vals]; [reflexivity|].
    destruct st; try reflexivity. destruct H. eauto.
Qed.

(** X7: on processed initiatives such that every scenario has a listed
    initiative with a non-zero effective return,
    [calculate_optimal_scenario_returns] does not raise, whatever the back end
    does: it submits exactly three problems, for best, med and worst in this
    order, and returns a dict with exactly these three keys, where an entry is
    [-math.inf] exactly when the back end raised or reported a status other
    than Optimal for that scenario, and the value of the objective
    otherwise. *)
Theorem calculate_optimal_scenario_returns_three_solves (cbc : solver)
    (ls : list loc) (B : Q) (w : world) :
  (∀ l s, l ∈ ls → s ∈ ["best"; "med"; "worst"] →
     ∃ er, effective_returns (objects w l) = Some er ∧ is_Some (er !! s)) →
  (∀ s, s ∈ ["best"; "med"; "worst"] →
     ∃ l er q, l ∈ ls ∧ effective_returns (objects w l) = Some er
               ∧ er !! s = Some q ∧ ¬ (q == 0)%Q) →
  ∃ V w',
    calculate_optimal_scenario_returns cbc ls B w = (Return V, w')
    ∧ objects w' = objects w
    ∧ solver_calls w' =
        solver_calls w ++ [scenario_problem_of (objects w) ls B "best";
                           scenario_problem_of (objects w) ls B "med";
                           scenario_problem_of (objects w) ls B "worst"]
    ∧ V = <["worst" :=
              scenario_value (scenario_problem_of (objects w) ls B "worst")
                (cbc (solver_calls w ++ [scenario_problem_of (objects w) ls B "best";
                                         scenario_problem_of (objects w) ls B "med"])
                   (scenario_problem_of (objects w) ls B "worst"))]>
          (<["med" :=
               scenario_value (scenario_problem_of (objects w) ls B "med")
                 (cbc (solver_calls w ++ [scenario_problem_of (objects w) ls B "best"])
                    (scenario_problem_of (objects w) ls B "med"))]>
             (<["best" :=
                  scenario_value (scenario_problem_of (objects w) ls B "best")
                    (cbc (solver_calls w)
                       (scenario_problem_of (objects w) ls B "best"))]> ∅))
    ∧ (∀ s, is_Some (V !! s) ↔ s ∈ ["best"; "med"; "worst"])
    ∧ (∀ p r, scenario_value p r = neg_inf
              ↔ ¬ ∃ vals, r = SolverDone LpStatusOptimal vals)
    ∧ (∀ p vals, scenario_value p (SolverDone LpStatusOptimal vals)
                 = finite (eval vals (objective p))).
Proof.
  intros Hstored Hnz.
  assert (Hret : ∀ l s, l ∈ ls → s ∈ scenarios →
                        returns (effective_return s (objects w l))).
  { intros l s Hl Hs. apply stored_effective_return, Hstored; assumption. }
  assert (Hne : ∀ s, s ∈ scenarios →
                     objective (scenario_problem_of (objects w) ls B s) ≠ []).
  { intros s Hs. apply objective_nonempty, Hnz. assumption. }
  unfold calculate_optimal_scenario_returns, scenarios.
  rewrite scenario_step
    by (first [apply Hne; repeat constructor
              |intros; apply Hret; [assumption|repeat constructor]]).
  rewrite scenario_step
    by (first [apply Hne; repeat constructor
              |intros; apply Hret; [assumption|repeat constructor]]).
  rewrite scenario_step
    by (first [apply Hne; repeat constructor
              |intros; apply Hret; [assumption|repeat constructor]]).
  eexists _, _. split; [reflexivity|].
  split; [reflexivity|].
  split; [simpl; rewrite <- !app_assoc; reflexivity|].
  split; [simpl; rewrite <- !app_assoc; reflexivity|].
  split; [|split; [apply scenario_value_neg_inf|reflexivity]].
  intros s. rewrite !lookup_insert. unfold scenarios.
  rewrite !elem_of_cons, elem_of_nil.
  destruct (decide ("worst" = s)) as [<-|H1];
    [split; [intros _; auto 6|intros _; eexists; reflexivity]|].
  destruct (decide ("med" = s)) as [<-|H2];
    [split; [intros _; auto 6|intros _; eexists; reflexivity]|].
  destruct (decide ("best" = s)) as [<-|H3];
    [split; [intros _; auto 6|intros _; eexists; reflexivity]|].
  rewrite lookup_empty. split; [intros [? ?]; discriminate|].
  intros [?|[?|[?|[]]]]; congruence.
Qed.

Lemma calculate_optimal_scenario_returns_three_solves_witness :
  ∃ V w',
    calculate_optimal_scenario_returns cbc_fails_med [0; 1]%nat 15 example_processed.2
      = (Return V, w')
    ∧ objects w' = objects example_processed.2
    ∧ solver_calls w' =
        solver_calls example_processed.2
        ++ [scenario_problem_of (objects example_processed.2) [0; 1]%nat 15 "best";
            scenario_problem_of (objects example_processed.2) [0; 1]%nat 15 "med";
            scenario_problem_of (objects example_processed.2) [0; 1]%nat 15 "worst"]
    ∧ V = <["worst" :=
              scenario_value
                (scenario_problem_of (objects example_processed.2) [0; 1]%nat 15 "worst")
                (cbc_fails_med
                   (solver_calls example_processed.2
                    ++ [scenario_problem_of (objects example_processed.2) [0; 1]%nat 15 "best";
                        scenario_problem_of (objects example_processed.2) [0; 1]%nat 15 "med"])
                   (scenario_problem_of (objects example_processed.2) [0; 1]%nat 15 "worst"))]>
          (<["med" :=
               scenario_value
                 (scenario_problem_of (objects example_processed.2) [0; 1]%nat 15 "med")
                 (cbc_fails_med
                    (solver_calls example_processed.2
                     ++ [scenario_problem_of (objects example_processed.2) [0; 1]%nat 15 "best"])
                    (scenario_problem_of (objects example_processed.2) [0; 1]%nat 15 "med"))]>
             (<["best" :=
                  scenario_value
                    (scenario_problem_of (objects example_processed.2) [0; 1]%nat 15 "best")
                    (cbc_fails_med (solver_calls example_processed.2)
                       (scenario_problem_of (objects example_processed.2) [0; 1]%nat 15
                          "best"))]> ∅))
    ∧ (∀ s, is_Some (V !! s) ↔ s ∈ ["best"; "med"; "worst"])
    ∧ (∀ p r, scenario_value p r = neg_inf
              ↔ ¬ ∃ vals, r = SolverDone LpStatusOptimal vals)
    ∧ (∀ p vals, scenario_value p (SolverDone LpStatusOptimal vals)
                 = finite (eval vals (objective p))).
Proof.
  apply (calculate_optimal_scenario_returns_three_solves cbc_fails_med [0; 1]%nat 15
           example_processed.2).
  - exact example_processed_stored.
  - exact example_processed_nonzero.
Defined.

Lemma lpSum_select_raise coef done l rest w e :
  (∀ x, x ∈ done → returns (coef (objects w x))) →
  coef (objects w l) = Raise e →
  lpSum_select coef (done ++ l :: rest) w = (Raise e, w).
Proof.
  intros Hdone Hl. induction done as [|x done IH]; simpl.
  - unfold mbind, M_bind, read, lift. simpl. rewrite Hl. reflexivity.
  - destruct (Hdone x) as [c Hc]; [left|].
    unfold mbind at 1, M_bind at 1, read. simpl.
    unfold mbind at 1, M_bind at 1, lift at 1. rewrite Hc.
    apply bind_raise. apply IH. intros; apply Hdone; right; assumption.
Qed.

(** X8: given an initiative that was never processed (it has no
    [effective_returns] key), [calculate_optimal_scenario_returns] raises
    [KeyError] while it builds the first objective, before it submits
    anything to the back end. *)
Theorem calculate_optimal_scenario_returns_unprocessed (cbc : solver)
    (done : list loc) (l : loc) (rest : list loc) (B : Q) (w : world) :
  (∀ x, x ∈ done → returns (effective_return "best" (objects w x))) →
  effective_returns (objects w l) = None →
  calculate_optimal_scenario_returns cbc (done ++ l :: rest) B w
  = (Raise (KeyError "effective_returns"), w).
Proof.
  intros Hdone Hl. unfold calculate_optimal_scenario_returns, scenarios. simpl.
  apply bind_raise. apply lpSum_select_raise; [assumption|].
  unfold effective_return. rewrite Hl. reflexivity.
Qed.

Lemma calculate_optimal_scenario_returns_unprocessed_witness :
  calculate_optimal_scenario_returns cbc_picks_A ([] ++ 0 :: [1])%nat 15 example_world
  = (Raise (KeyError "effective_returns"), example_world).
Proof.
  apply (calculate_optimal_scenario_returns_unprocessed cbc_picks_A [] 0%nat [1]%nat 15
           example_world).
  - intros x Hx. apply elem_of_nil in Hx as [].
  - reflexivity.
Defined.

(** ** The pipeline as a whole *)

Lemma scenario_loop_calls cbc ls B names : ∀ V w V' w',
  scenario_loop cbc ls B names V w = (Return V', w') →
  ∃ ps, solver_calls w' = solver_calls w ++ ps
        ∧ length ps = length names
        ∧ Forall (λ p, sense p = LpMaximize) ps.
Proof.
  induction names as [|s0 names IH]; intros V w V' w' H.
  - injection H as <- <-. exists []. rewrite app_nil_r. auto.
  - simpl in H.
    apply bind_inv in H as (obj & w1 & Hobj & H).
    apply lpSum_select_inv in Hobj as (-> & _ & _).
    apply bind_inv in H as (lhs & w1 & Hlhs & H).
    apply lpSum_select_inv in Hlhs as (-> & _ & _).
    rewrite (bind_return _ _ _ _ _ (solve_eq cbc _ w)) in H.
    set (p := scenario_problem s0 obj lhs B) in *.
    assert (Hstep : ∀ V1, scenario_loop cbc ls B names V1 (logged p w) = (Return V', w') →
              ∃ ps, solver_calls w' = solver_calls w ++ ps
                    ∧ length ps = S (length names)
                    ∧ Forall (λ p, sense p = LpMaximize) ps).
    { intros V1 H1. apply IH in H1 as (ps & Hc & Hlen & Hmax).
      exists (p :: ps). simpl in Hc. rewrite <- app_assoc in Hc.
      split; [exact Hc|]. split; [simpl; congruence|].
      constructor; [reflexivity|assumption]. }
    destruct (reported p (cbc (solver_calls w) p)) as [msg|sol]; [eapply Hstep; eauto|].
    destruct (bool_decide (LpStatus (prob_status sol) = "Optimal")); [|eapply Hstep; eauto].
    destruct (objective_value (varValue sol) obj); [eapply Hstep; eauto|discriminate].
Qed.

(** X9: a run that returns has submitted no problem (no eligible initiative),
    or the three scenario problems only (a scenario ideal value is
    [-math.inf]), or the three scenario problems followed by the minimax
    problem: the back end is called at most four times and the minimax
    problem is always the last call. *)
Theorem returned_run_calls (cbc : solver) (data : list loc)
    (B thr floor : Q) (pen : Q → outcome Q) (w w' : world) (r : Result) :
  solve_minimax_regret_optimization cbc data B thr floor pen w = (Return r, w') →
  (status r = "No Eligible Initiatives" ∧ solver_calls w' = solver_calls w)
  ∨ (∃ ps, status r = "Error in V_j_star calculation"
           ∧ solver_calls w' = solver_calls w ++ ps
           ∧ length ps = 3%nat
           ∧ Forall (λ p, sense p = LpMaximize) ps)
  ∨ (∃ ps p, solver_calls w' = solver_calls w ++ ps ++ [p]
             ∧ length ps = 3%nat
             ∧ Forall (λ p, sense p = LpMaximize) ps
             ∧ is_minimax_problem p
             ∧ status r ≠ "No Eligible Initiatives"
             ∧ status r ≠ "Error in V_j_star calculation").
Proof.
  intros H. apply solve_exit in H.
  assert (Hstages : ∀ w1 w2 V,
    calculate_effective_returns (eligible thr (objects w) data) pen w
      = (Return (eligible thr (objects w) data), w1) →
    calculate_optimal_scenario_returns cbc (eligible thr (objects w) data) B w1
      = (Return V, w2) →
    ∃ ps, solver_calls w2 = solver_calls w ++ ps ∧ length ps = 3%nat
          ∧ Forall (λ p, sense p = LpMaximize) ps).
  { intros w1 w2 V Hcer Hcosr.
    apply calculate_effective_returns_inv in Hcer as [_ Hloop].
    pose proof (for_each_process_frame pen (eligible thr (objects w) data) w) as [Hc _].
    rewrite Hloop in Hc. simpl in Hc. rewrite <- Hc.
    apply scenario_loop_calls in Hcosr. exact Hcosr. }
  destruct H as [_ -> -> | w1 V Hcer Hcosr _ ->
                | w1 w2 V prob msg Hcer Hcosr Hany Hprob _ -> ->
                | w1 w2 V prob st vals acc regrets Hcer Hcosr Hany Hprob _ -> _ ->].
  - left. auto.
  - right. left. destruct (Hstages _ _ _ Hcer Hcosr) as (ps & ? & ? & ?).
    exists ps. auto.
  - right. right. destruct (Hstages _ _ _ Hcer Hcosr) as (ps & Hc & ? & ?).
    exists ps, prob. simpl. rewrite Hc, <- app_assoc.
    split; [reflexivity|]. split; [assumption|]. split; [assumption|].
    split; [rewrite Hprob; apply main_problem_of_is_minimax|].
    split; discriminate.
  - right. right. destruct (Hstages _ _ _ Hcer Hcosr) as (ps & Hc & ? & ?).
    exists ps, prob. simpl. rewrite Hc, <- app_assoc.
    split; [reflexivity|]. split; [assumption|]. split; [assumption|].
    split; [rewrite Hprob; apply main_problem_of_is_minimax|].
    split; destruct st; discriminate.
Qed.

Lemma returned_run_calls_witness :
  (status (the_result example_optimal) = "No Eligible Initiatives"
   ∧ solver_calls example_optimal.2 = solver_calls example_world)
  ∨ (∃ ps, status (the_result example_optimal) = "Error in V_j_star calculation"
           ∧ solver_calls example_optimal.2 = solver_calls example_world ++ ps
           ∧ length ps = 3%nat
           ∧ Forall (λ p, sense p = LpMaximize) ps)
  ∨ (∃ ps p, solver_calls example_optimal.2 = solver_calls example_world ++ ps ++ [p]
             ∧ length ps = 3%nat
             ∧ Forall (λ p, sense p = LpMaximize) ps
             ∧ is_minimax_problem p
             ∧ status (the_result example_optimal) ≠ "No Eligible Initiatives"
             ∧ status (the_result example_optimal) ≠ "Error in V_j_star calculation").
Proof.
  apply (returned_run_calls cbc_picks_A [0; 1; 2]%nat 15 (3 # 10) 40
           calculate_gamma example_world example_optimal.2
           (the_result example_optimal)).
  exact example_optimal_returns.
Defined.

Lemma augment_ini_id pen i : ini_id (augment pen i) = ini_id i.
Proof. unfold augment. destruct (pen (confidence i)); reflexivity. Qed.

Lemma augment_cost pen i : cost (augment pen i) = cost i.
Proof. unfold augment. destruct (pen (confidence i)); reflexivity. Qed.

Lemma augment_R_worst pen i : R_worst (augment pen i) = R_worst i.
Proof. unfold augment. destruct (pen (confidence i)); reflexivity. Qed.

(** The initiatives the main solve sees are the caller's, augmented. *)
Lemma stages_objects cbc data B thr pen w w1 V w2 :
  calculate_effective_returns (eligible thr (objects w) data) pen w
    = (Return (eligible thr (objects w) data), w1) →
  calculate_optimal_scenario_returns cbc (eligible thr (objects w) data) B w1
    = (Return V, w2) →
  ∀ l, objects w2 l =
       if decide (l ∈ eligible thr (objects w) data)
       then augment pen (objects w l) else objects w l.
Proof.
  intros Hcer Hcosr l.
  rewrite (calculate_optimal_scenario_returns_objects _ _ _ _ _ _ Hcosr).
  apply calculate_effective_returns_objects. assumption.
Qed.

Lemma picked_subset x h ls l : l ∈ picked x h ls → l ∈ ls.
Proof.
  unfold picked. rewrite !list_elem_of_In, filter_In. intros [H _]. exact H.
Qed.

(** X10: every id in [selected_initiatives] is the id of an initiative of the
    input list whose confidence reaches the threshold: an initiative below
    the threshold is never selected, whatever the back end answers. *)
Theorem selected_are_eligible (cbc : solver) (data : list loc)
    (B thr floor : Q) (pen : Q → outcome Q) (w w' : world) (r : Result) :
  solve_minimax_regret_optimization cbc data B thr floor pen w = (Return r, w') →
  ∀ k, k ∈ selected_initiatives r →
    ∃ l, l ∈ data ∧ (thr <= confidence (objects w l))%Q ∧ ini_id (objects w l) = k.
Proof.
  intros H k Hk. apply solve_exit in H.
  destruct H as [_ -> _ | w1 V _ _ _ -> | w1 w2 V prob msg _ _ _ _ _ _ ->
                | w1 w2 V prob st vals acc regrets Hcer Hcosr _ _ _ -> Hacc ->];
    simpl in Hk; try (apply elem_of_nil in Hk as []).
  destruct (bool_decide (st = LpStatusOptimal)).
  - destruct Hacc as [Hsel _].
    apply select_loop_inv in Hsel as (_ & _ & Hids & _). simpl in Hids.
    rewrite Hids in Hk. apply list_elem_of_fmap in Hk as (l & -> & Hl).
    apply picked_subset in Hl. exists l.
    pose proof Hl as Hl'. apply elem_of_eligible in Hl' as [Hd Ht].
    split; [assumption|]. split; [assumption|].
    rewrite (stages_objects _ _ _ _ _ _ _ _ _ Hcer Hcosr), decide_True by assumption.
    symmetry. apply augment_ini_id.
  - destruct Hacc as [-> _]. simpl in Hk. apply elem_of_nil in Hk as [].
Qed.

Lemma selected_are_eligible_witness :
  ∃ l, l ∈ [0; 1; 2]%nat ∧ (3 # 10 <= confidence (objects example_world l))%Q
       ∧ ini_id (objects example_world l) = "A".
Proof.
  apply (selected_are_eligible cbc_picks_A [0; 1; 2]%nat 15 (3 # 10) 40
           calculate_gamma example_world example_optimal.2
           (the_result example_optimal) example_optimal_returns "A").
  vm_compute. left.
Defined.

Lemma solve_no_eligible cbc data B thr floor pen w :
  eligible thr (objects w) data = [] →
  solve_minimax_regret_optimization cbc data B thr floor pen w
  = (Return (empty_result "No Eligible Initiatives" ∅), w).
Proof.
  intros H. unfold solve_minimax_regret_optimization.
  rewrite (bind_return _ _ _ _ _ (filter_eligible_eq thr data w)), H. reflexivity.
Qed.

(** X11: the status of a returned result tells how the run ended: it is
    "No Eligible Initiatives" exactly when no initiative of the input reaches
    the threshold, and it is "Error in V_j_star calculation" exactly when
    the result's [v_j_star] holds [-math.inf] for some scenario. *)
Theorem status_reflects_exit (cbc : solver) (data : list loc)
    (B thr floor : Q) (pen : Q → outcome Q) (w w' : world) (r : Result) :
  solve_minimax_regret_optimization cbc data B thr floor pen w = (Return r, w') →
  (status r = "No Eligible Initiatives"
   ↔ ∀ l, l ∈ data → ¬ (thr <= confidence (objects w l))%Q)
  ∧ (status r = "Error in V_j_star calculation"
     ↔ ∃ s, v_j_star r !! s = Some neg_inf).
Proof.
  intros H. split.
  - split.
    + intros Hst l Hl Hthr. apply solve_exit in H.
      assert (Hin : l ∈ eligible thr (objects w) data) by (apply elem_of_eligible; auto).
      destruct H as [Hnil _ _ | w1 V _ _ _ -> | w1 w2 V prob msg _ _ _ _ _ _ ->
                    | w1 w2 V prob st vals acc regrets _ _ _ _ _ _ _ ->];
        simpl in Hst; try discriminate.
      * rewrite Hnil in Hin. apply elem_of_nil in Hin as [].
      * destruct st; discriminate.
    + intros Hall. rewrite (solve_no_eligible _ _ _ _ _ _ _ (eligible_nil _ _ _ Hall)) in H.
      injection H as <- _. reflexivity.
  - apply solve_exit in H.
    destruct H as [_ -> _ | w1 V _ _ Hany -> | w1 w2 V prob msg _ _ Hany _ _ _ ->
                  | w1 w2 V prob st vals acc regrets _ _ Hany _ _ _ _ ->]; simpl.
    + split; [discriminate|]. intros (s & Hs). rewrite lookup_empty in Hs. discriminate.
    + split; [intros _; apply any_neg_inf_true; assumption|reflexivity].
    + split; [discriminate|]. intros Hs. apply any_neg_inf_true in Hs. congruence.
    + split; [destruct st; discriminate|].
      intros Hs. apply any_neg_inf_true in Hs. congruence.
Qed.

Lemma status_reflects_exit_witness :
  (status (the_result example_stopped) = "No Eligible Initiatives"
   ↔ ∀ l, l ∈ [0; 1; 2]%nat → ¬ (3 # 10 <= confidence (objects example_world l))%Q)
  ∧ (status (the_result example_stopped) = "Error in V_j_star calculation"
     ↔ ∃ s, v_j_star (the_result example_stopped) !! s = Some neg_inf).
Proof.
  apply (status_reflects_exit cbc_stopped [0; 1; 2]%nat 15 (3 # 10) 40
           calculate_gamma example_world example_stopped.2).
  exact example_stopped_returns.
Defined.

(** ** The minimax problem *)

Lemma main_problem_constraints h ls V B floor c :
  c ∈ constraints (main_problem_of h ls V B floor) ↔
  (∃ s, s ∈ scenarios ∧ c = regret_constraint_of h ls V s)
  ∨ c = {| c_terms := terms_of h cost ls; c_sense := LpConstraintLE;
           c_rhs := finite B |}
  ∨ c = {| c_terms := terms_of h R_worst ls; c_sense := LpConstraintGE;
           c_rhs := finite floor |}.
Proof.
  unfold main_problem_of, minimax_problem. cbn [constraints].
  rewrite elem_of_app, list_elem_of_fmap, !elem_of_cons, elem_of_nil.
  split.
  - intros [(s & -> & Hs) | [-> | [-> | []]]]; eauto.
  - intros [(s & Hs & ->) | [-> | ->]]; eauto.
Qed.

Lemma variables_of_constraint p c v :
  c ∈ constraints p → v ∈ (c_terms c).*1 → v ∈ variables p.
Proof.
  intros Hc Hv. unfold variables. apply elem_of_app. right.
  apply list_elem_of_In, in_flat_map. exists c.
  split; apply list_elem_of_In; assumption.
Qed.

Lemma processed_effective ls pen w w1 :
  calculate_effective_returns ls pen w = (Return ls, w1) →
  ∀ l s, l ∈ ls → s ∈ scenarios → returns (effective_return s (objects w1 l)).
Proof.
  intros H l s Hl Hs.
  rewrite (calculate_effective_returns_objects _ _ _ _ l H), decide_True by assumption.
  apply calculate_effective_returns_inv in H as [_ Hloop].
  destruct (for_each_process_inv _ _ _ _ Hloop l Hl) as [g Hg].
  unfold augment. rewrite Hg. unfold scenarios in Hs.
  repeat (apply elem_of_cons in Hs as [->|Hs]; [eexists; reflexivity|]).
  apply elem_of_nil in Hs as [].
Qed.

(** A non-zero effective return stored by the pass gives the scenario
    objective a term. *)
Lemma pass_objective_nonempty data thr pen w w1 B s :
  calculate_effective_returns (eligible thr (objects w) data) pen w
    = (Return (eligible thr (objects w) data), w1) →
  (∃ l er q, l ∈ data ∧ (thr <= confidence (objects w l))%Q
     ∧ effective_returns
         (objects (calculate_effective_returns
                     (filter (λ l, (thr <= confidence (objects w l))%Q) data) pen w).2 l)
       = Some er
     ∧ er !! s = Some q ∧ ¬ (q == 0)%Q) →
  objective (scenario_problem_of (objects w1) (eligible thr (objects w) data) B s) ≠ [].
Proof.
  intros Hcer (l & er & q & Hl & Hthr & Her & Hq & Hnz).
  rewrite <- eligible_filter, Hcer in Her. simpl in Her.
  apply objective_nonempty. exists l, er, q.
  split; [apply elem_of_eligible; auto|auto].
Qed.

(** ** When the pipeline returns *)

Lemma add_returns_return i names : ∀ tr w,
  (∀ s, s ∈ names → is_Some (tr !! s)) →
  (∀ s, s ∈ names → returns (effective_return s (objects w i))) →
  ∃ tr', add_returns i names tr w = (Return tr', w)
         ∧ ∀ s, is_Some (tr !! s) → is_Some (tr' !! s).
Proof.
  induction names as [|s0 names IH]; intros tr w Hkeys Hret.
  - exists tr. split; [reflexivity|auto].
  - destruct (Hkeys s0) as [old Hold]; [left|].
    destruct (Hret s0) as [r Hr]; [left|].
    destruct (IH (<[s0 := (old + r)%Q]> tr) w) as (tr' & Hrun & Hkeep).
    { intros s Hs. rewrite lookup_insert. case_decide; [eauto|].
      apply Hkeys. right. assumption. }
    { intros s Hs. apply Hret. right. assumption. }
    exists tr'. split.
    + simpl. unfold getitem. rewrite Hold.
      unfold mbind at 1, M_bind at 1, lift at 1.
      unfold mbind at 1, M_bind at 1. unfold mbind at 1, M_bind at 1, read, lift.
      simpl. rewrite Hr. exact Hrun.
    + intros s Hs. apply Hkeep. rewrite lookup_insert. case_decide; [eauto|assumption].
Qed.

Lemma select_loop_return x ls : ∀ acc w,
  (∀ l, l ∈ ls → is_Some (x (Select (ini_id (objects w l))))) →
  (∀ l s, l ∈ ls → s ∈ scenarios → returns (effective_return s (objects w l))) →
  (∀ s, s ∈ scenarios → is_Some (t_returns acc !! s)) →
  ∃ acc', select_loop x ls acc w = (Return acc', w)
          ∧ ∀ s, s ∈ scenarios → is_Some (t_returns acc' !! s).
Proof.
  induction ls as [|l ls IH]; intros acc w Hsome Hret Hkeys.
  - exists acc. split; [reflexivity|assumption].
  - rewrite select_loop_cons. destruct (Hsome l) as [v Hv]; [left|].
    unfold mbind at 1, M_bind at 1, read. simpl. rewrite Hv.
    assert (Hsome' : ∀ l', l' ∈ ls → is_Some (x (Select (ini_id (objects w l')))))
      by (intros; apply Hsome; right; assumption).
    assert (Hret' : ∀ l' s, l' ∈ ls → s ∈ scenarios →
                      returns (effective_return s (objects w l')))
      by (intros; apply Hret; [right|]; assumption).
    destruct (Qgt_bool v (1 # 2)); [|apply IH; assumption].
    destruct (add_returns_return l scenarios (t_returns acc) w Hkeys)
      as (tr & Hadd & Hkeep); [intros; apply Hret; [left|assumption]|].
    rewrite (bind_return _ _ _ _ _ Hadd). apply IH; try assumption.
    intros s Hs. simpl. apply Hkeep, Hkeys. assumption.
Qed.

Lemma regret_loop_return V tr names : ∀ R,
  (∀ s, s ∈ names → is_Some (V !! s) ∧ is_Some (tr !! s)) →
  returns (regret_loop V tr names R).
Proof.
  induction names as [|s0 names IH]; intros R H; [eexists; reflexivity|].
  destruct (H s0) as [[v Hv] [t Ht]]; [left|].
  simpl. unfold mbind, outcome_bind, getitem. rewrite Hv, Ht.
  apply IH. intros; apply H; right; assumption.
Qed.

(** X14: whatever the back end does (it may raise, report any status and any
    values), the pipeline returns a result to its caller when the penalty
    model accepts the confidence of every eligible initiative, every eligible
    initiative has a non-zero cost or a non-zero worst return, and for every
    scenario the effective-return pass stores a non-zero effective return in
    some eligible initiative. *)
Theorem pipeline_returns (cbc : solver) (data : list loc)
    (B thr floor : Q) (pen : Q → outcome Q) (w : world) :
  (∀ l, l ∈ data → (thr <= confidence (objects w l))%Q →
        ∃ g, pen (confidence (objects w l)) = Return g) →
  (∀ l, l ∈ data → (thr <= confidence (objects w l))%Q →
        ¬ (cost (objects w l) == 0)%Q ∨ ¬ (R_worst (objects w l) == 0)%Q) →
  (∀ s, s ∈ ["best"; "med"; "worst"] →
     ∃ l er q, l ∈ data ∧ (thr <= confidence (objects w l))%Q
       ∧ effective_returns
           (objects (calculate_effective_returns
                       (filter (λ l, (thr <= confidence (objects w l))%Q) data)
                       pen w).2 l)
         = Some er
       ∧ er !! s = Some q ∧ ¬ (q == 0)%Q) →
  ∃ r w', solve_minimax_regret_optimization cbc data B thr floor pen w
          = (Return r, w').
Proof.
  intros Hpen Hnz Hterm.
  destruct (eligible thr (objects w) data) as [|l0 ls0] eqn:Helig.
  { eexists _, _. apply solve_no_eligible. assumption. }
  unfold solve_minimax_regret_optimization.
  rewrite (bind_return _ _ _ _ _ (filter_eligible_eq thr data w)), Helig.
  rewrite <- Helig in *. clear Helig l0 ls0.
  set (ls := eligible thr (objects w) data) in *.
  destruct (calculate_effective_returns_return pen ls w) as (w1 & Hcer & _ & Hobj1).
  { intros l Hl. apply elem_of_eligible in Hl as [? ?]. apply Hpen; assumption. }
  rewrite (bind_return _ _ _ _ _ Hcer).
  pose proof (processed_effective _ _ _ _ Hcer) as Hret1.
  destruct (scenario_loop_return cbc ls B scenarios ∅ w1 Hret1)
    as (V & w2 & Hcosr & Hobj2 & _ & _ & Hin).
  { intros s Hs. apply (pass_objective_nonempty data thr pen w w1 B s Hcer).
    apply Hterm. assumption. }
  unfold calculate_optimal_scenario_returns.
  rewrite (bind_return _ _ _ _ _ Hcosr).
  destruct (any_neg_inf V); [eexists _, _; reflexivity|].
  assert (Hret2 : ∀ l s, l ∈ ls → s ∈ scenarios →
                    returns (effective_return s (objects w2 l)))
    by (rewrite Hobj2; exact Hret1).
  assert (Hkeys : ∀ s, s ∈ scenarios → is_Some (V !! s)).
  { intros s Hs. destruct (Hin s Hs) as [hist ->]. eauto. }
  rewrite (bind_return _ _ _ _ _ (regret_constraints_return ls V scenarios w2 Hkeys Hret2)).
  rewrite (bind_return _ _ _ _ _
             (lpSum_select_return (λ i, Return (cost i)) ls w2
                ltac:(intros; eexists; reflexivity))).
  rewrite (bind_return _ _ _ _ _
             (lpSum_select_return (λ i, Return (R_worst i)) ls w2
                ltac:(intros; eexists; reflexivity))).
  rewrite (bind_return _ _ _ _ _ (solve_eq cbc _ w2)).
  change (minimax_problem (map (regret_constraint_of (objects w2) ls V) scenarios)
            (terms_of (objects w2) (or_zero (λ i, Return (cost i))) ls)
            (terms_of (objects w2) (or_zero (λ i, Return (R_worst i))) ls) B floor)
    with (main_problem_of (objects w2) ls V B floor).
  set (prob := main_problem_of (objects w2) ls V B floor).
  destruct (cbc (solver_calls w2) prob) as [msg|st vals];
    unfold reported; cbn [prob_status varValue];
    [eexists _, _; reflexivity|].
  destruct (bool_decide (st = LpStatusOptimal)); [|eexists _, _; reflexivity].
  destruct (select_loop_return (varValue_of prob vals) ls
              {| t_selected := []; t_cost := 0; t_returns := zero_returns |}
              (logged prob w2)) as (acc & Hsel & Hacc).
  { intros l Hl. unfold varValue_of. rewrite decide_True; [eauto|].
    simpl. pose proof Hl as Hl'. apply elem_of_eligible in Hl' as [Hd Ht].
    assert (Hl2 : objects w2 l = augment pen (objects w l)).
    { rewrite Hobj2, Hobj1, decide_True by assumption. reflexivity. }
    destruct (Hnz l Hd Ht) as [Hc|Hc].
    - apply (variables_of_constraint _
               {| c_terms := terms_of (objects w2) cost ls; c_sense := LpConstraintLE;
                  c_rhs := finite B |});
        [apply main_problem_constraints; right; left; reflexivity|].
      simpl. apply list_elem_of_fmap.
      exists (Select (ini_id (objects w2 l)), cost (objects w2 l)).
      split; [reflexivity|]. apply terms_of_elem; [assumption|].
      rewrite Hl2, augment_cost. assumption.
    - apply (variables_of_constraint _
               {| c_terms := terms_of (objects w2) R_worst ls;
                  c_sense := LpConstraintGE; c_rhs := finite floor |});
        [apply main_problem_constraints; right; right; reflexivity|].
      simpl. apply list_elem_of_fmap.
      exists (Select (ini_id (objects w2 l)), R_worst (objects w2 l)).
      split; [reflexivity|]. apply terms_of_elem; [assumption|].
      rewrite Hl2, augment_R_worst. assumption. }
  { exact Hret2. }
  { intros s Hs. cbn [t_returns]. rewrite (zero_returns_lookup s Hs). eauto. }
  rewrite (bind_return _ _ _ _ _ Hsel).
  destruct (regret_loop_return V (t_returns acc) scenarios zero_regrets) as [R HR].
  { intros s Hs. split; [apply Hkeys|apply Hacc]; assumption. }
  unfold lift. rewrite HR. eexists _, _. reflexivity.
Qed.

Lemma example_pass_nonzero s :
  s ∈ scenarios →
  ∃ l er q, l ∈ [0; 1; 2]%nat ∧ (3 # 10 <= confidence (objects example_world l))%Q
    ∧ effective_returns
        (objects (calculate_effective_returns
                    (filter (λ l, (3 # 10 <= confidence (objects example_world l))%Q)
                       [0; 1; 2]%nat)
                    calculate_gamma example_world).2 l)
      = Some er
    ∧ er !! s = Some q ∧ ¬ (q == 0)%Q.
Proof.
  intros Hs. unfold scenarios in Hs. exists 0%nat.
  repeat (apply elem_of_cons in Hs as [->|Hs];
          [eexists _, _; split; [left|];
           split; [simpl; discriminate|];
           split; [vm_compute; reflexivity|];
           split; [vm_compute; reflexivity|discriminate]|]).
  apply elem_of_nil in Hs as [].
Qed.

Lemma pipeline_returns_witness :
  ∃ r w', solve_minimax_regret_optimization cbc_fails_med [0; 1; 2]%nat 15 (3 # 10) 40
            calculate_gamma example_world = (Return r, w').
Proof.
  apply (pipeline_returns cbc_fails_med [0; 1; 2]%nat 15 (3 # 10) 40
           calculate_gamma example_world).
  - intros l Hl _.
    repeat (apply elem_of_cons in Hl as [->|Hl]; [eexists; reflexivity|]).
    apply elem_of_nil in Hl as [].
  - intros l Hl _. left.
    repeat (apply elem_of_cons in Hl as [->|Hl]; [simpl; discriminate|]).
    apply elem_of_nil in Hl as [].
  - exact example_pass_nonzero.
Defined.

Lemma augment_raw_fields pen i : raw_fields (augment pen i) = raw_fields i.
Proof. unfold augment. destruct (pen (confidence i)); reflexivity. Qed.

Lemma for_each_process_raw pen ls : ∀ w l,
  raw_fields (objects (for_each ls (process_initiative pen) w).2 l)
  = raw_fields (objects w l).
Proof.
  induction ls as [|l0 ls IH]; intros w l; [reflexivity|].
  simpl. destruct (pen (confidence (objects w l0))) as [e|g] eqn:Hg.
  - rewrite (bind_raise _ _ _ _ _ (process_initiative_raise pen l0 w e Hg)). reflexivity.
  - destruct (process_initiative_return pen l0 w g Hg) as (w1 & H1 & _ & Ho1).
    rewrite (bind_return _ _ _ _ _ H1), IH, Ho1.
    destruct (decide (l = l0)) as [->|_]; reflexivity.
Qed.

(** X15: whatever the outcome of the pipeline, a result or an exception, and
    whatever the penalty model, the raw fields id, cost, confidence, R_best,
    R_med and R_worst of every initiative are the same after the call as
    before. *)
Theorem raw_fields_never_change (cbc : solver) (data : list loc)
    (B thr floor : Q) (pen : Q → outcome Q) (w : world) (l : loc) :
  raw_fields
    (objects (solve_minimax_regret_optimization cbc data B thr floor pen w).2 l)
  = raw_fields (objects w l).
Proof. rewrite solve_objects. apply for_each_process_raw. Qed.

(** X16: when the back end raises on the minimax problem, after the three
    scenario solves have succeeded on objectives that each have a term (for
    every scenario the effective-return pass stores a non-zero effective
    return in some eligible initiative), the pipeline catches the exception
    and returns a result whose status is "Error solving main problem: "
    followed by the message, with nothing selected, no minimax regret, cost 0
    and empty regrets, and which still carries the scenario ideal values. *)
Theorem main_solver_error_is_reported (cbc : solver) (data : list loc)
    (B thr floor : Q) (pen : Q → outcome Q) (w : world) (msg : string) :
  (∀ l, l ∈ data → (thr <= confidence (objects w l))%Q →
        ∃ g, pen (confidence (objects w l)) = Return g) →
  (∀ s, s ∈ ["best"; "med"; "worst"] →
     ∃ l er q, l ∈ data ∧ (thr <= confidence (objects w l))%Q
       ∧ effective_returns
           (objects (calculate_effective_returns
                       (filter (λ l, (thr <= confidence (objects w l))%Q) data)
                       pen w).2 l)
         = Some er
       ∧ er !! s = Some q ∧ ¬ (q == 0)%Q) →
  (∀ hist p, sense p = LpMaximize →
             ∃ vals, cbc hist p = SolverDone LpStatusOptimal vals) →
  (∀ hist p, sense p = LpMinimize → cbc hist p = SolverError msg) →
  ∃ V w',
    solve_minimax_regret_optimization cbc data B thr floor pen w
    = (Return {| status := "Error solving main problem: " +:+ msg;
                 min_max_regret := None;
                 selected_initiatives := [];
                 total_cost := 0;
                 total_actual_returns :=
                   <["worst" := 0%Q]> (<["med" := 0%Q]> (<["best" := 0%Q]> ∅));
                 v_j_star := V;
                 regrets_for_selected_portfolio := ∅ |}, w')
    ∧ ∀ s, s ∈ ["best"; "med"; "worst"] → ∃ v, V !! s = Some (finite v).
Proof.
  intros Hpen Hterm Hmax Hmin.
  assert (Hne : eligible thr (objects w) data ≠ []).
  { destruct (Hterm "best") as (l & _ & _ & Hl & Hthr & _); [left|].
    intros E. assert (Hin : l ∈ eligible thr (objects w) data)
      by (apply elem_of_eligible; auto).
    rewrite E in Hin. apply elem_of_nil in Hin as []. }
  unfold solve_minimax_regret_optimization.
  rewrite (bind_return _ _ _ _ _ (filter_eligible_eq thr data w)).
  destruct (eligible thr (objects w) data) as [|l0 ls0] eqn:Helig; [congruence|].
  rewrite <- Helig in *. clear Helig l0 ls0 Hne.
  set (ls := eligible thr (objects w) data) in *.
  destruct (calculate_effective_returns_return pen ls w) as (w1 & Hcer & _ & Hobj1).
  { intros l Hl. apply elem_of_eligible in Hl as [? ?]. apply Hpen; assumption. }
  rewrite (bind_return _ _ _ _ _ Hcer).
  pose proof (processed_effective _ _ _ _ Hcer) as Hret1.
  assert (Hobjs : ∀ s, s ∈ scenarios →
                       objective (scenario_problem_of (objects w1) ls B s) ≠ []).
  { intros s Hs. apply (pass_objective_nonempty data thr pen w w1 B s Hcer).
    apply Hterm. assumption. }
  destruct (scenario_loop_return cbc ls B scenarios ∅ w1 Hret1 Hobjs)
    as (V & w2 & Hcosr & Hobj2 & _ & _ & Hin).
  unfold calculate_optimal_scenario_returns.
  rewrite (bind_return _ _ _ _ _ Hcosr).
  assert (Hfin : ∀ s, s ∈ scenarios → ∃ v, V !! s = Some (finite v)).
  { intros s Hs. destruct (Hin s Hs) as [hist ->].
    destruct (Hmax hist (scenario_problem_of (objects w1) ls B s) eq_refl)
      as [vals ->]. eexists. reflexivity. }
  assert (Hall : ∀ s v, V !! s = Some v → v ≠ neg_inf).
  { intros s v Hv ->.
    destruct (scenario_loop_return cbc ls B scenarios ∅ w1 Hret1 Hobjs)
      as (V' & w2' & Hrun & _ & _ & Hout & _).
    rewrite Hcosr in Hrun. injection Hrun as <- <-.
    destruct (decide (s ∈ scenarios)) as [Hs|Hs].
    - destruct (Hfin s Hs) as [q Hq]. congruence.
    - rewrite (Hout s Hs), lookup_empty in Hv. discriminate. }
  destruct (any_neg_inf V) eqn:Hany.
  { apply any_neg_inf_true in Hany as [s Hs]. destruct (Hall s _ Hs). reflexivity. }
  assert (Hret2 : ∀ l s, l ∈ ls → s ∈ scenarios →
                    returns (effective_return s (objects w2 l)))
    by (rewrite Hobj2; exact Hret1).
  assert (Hkeys : ∀ s, s ∈ scenarios → is_Some (V !! s)).
  { intros s Hs. destruct (Hfin s Hs) as [v ->]. eauto. }
  rewrite (bind_return _ _ _ _ _ (regret_constraints_return ls V scenarios w2 Hkeys Hret2)).
  rewrite (bind_return _ _ _ _ _
             (lpSum_select_return (λ i, Return (cost i)) ls w2
                ltac:(intros; eexists; reflexivity))).
  rewrite (bind_return _ _ _ _ _
             (lpSum_select_return (λ i, Return (R_worst i)) ls w2
                ltac:(intros; eexists; reflexivity))).
  rewrite (bind_return _ _ _ _ _ (solve_eq cbc _ w2)).
  rewrite Hmin by reflexivity.
  exists V. eexists. split; [reflexivity|exact Hfin].
Qed.

Lemma main_solver_error_is_reported_witness :
  ∃ V w',
    solve_minimax_regret_optimization cbc_crashes_on_main [0; 1; 2]%nat 15 (3 # 10) 40
      calculate_gamma example_world
    = (Return {| status := "Error solving main problem: " +:+ "cbc died";
                 min_max_regret := None;
                 selected_initiatives := [];
                 total_cost := 0;
                 total_actual_returns :=
                   <["worst" := 0%Q]> (<["med" := 0%Q]> (<["best" := 0%Q]> ∅));
                 v_j_star := V;
                 regrets_for_selected_portfolio := ∅ |}, w')
    ∧ ∀ s, s ∈ ["best"; "med"; "worst"] → ∃ v, V !! s = Some (finite v).
Proof.
  apply (main_solver_error_is_reported cbc_crashes_on_main [0; 1; 2]%nat 15 (3 # 10) 40
           calculate_gamma example_world "cbc died").
  - intros l Hl _.
    repeat (apply elem_of_cons in Hl as [->|Hl]; [eexists; reflexivity|]).
    apply elem_of_nil in Hl as [].
  - exact example_pass_nonzero.
  - intros hist p Hp. unfold cbc_crashes_on_main. rewrite Hp. eexists. reflexivity.
  - intros hist p Hp. unfold cbc_crashes_on_main. rewrite Hp. reflexivity.
Defined.

(** ** Variables that occur in no constraint *)

Lemma terms_of_nonzero h c ls v :
  v ∈ (terms_of h c ls).*1 →
  ∃ l, l ∈ ls ∧ v = Select (ini_id (h l)) ∧ ¬ (c (h l) == 0)%Q.
Proof.
  intros Hv. apply list_elem_of_fmap in Hv as ([v' q] & -> & Ht). simpl.
  unfold terms_of in Ht. apply list_elem_of_In, in_flat_map in Ht as (l & Hl & Ht).
  exists l. split; [apply list_elem_of_In; assumption|].
  unfold times in Ht. destruct (Qeq_bool (c (h l)) 0) eqn:E; [destruct Ht|].
  destruct Ht as [Ht|[]]. injection Ht as <- _. split; [reflexivity|].
  intros Hz. apply Qeq_bool_iff in Hz. congruence.
Qed.

Lemma select_in_main_problem h ls V B floor k :
  Select k ∈ variables (main_problem_of h ls V B floor) →
  ∃ l, l ∈ ls ∧ ini_id (h l) = k
       ∧ (¬ (cost (h l) == 0)%Q ∨ ¬ (R_worst (h l) == 0)%Q
          ∨ ∃ s, s ∈ scenarios ∧ ¬ (returns_of s (h l) == 0)%Q).
Proof.
  unfold variables. intros Hk. apply elem_of_app in Hk as [Hk|Hk].
  { simpl in Hk. apply elem_of_cons in Hk as [Hk|Hk]; [discriminate|].
    apply elem_of_nil in Hk as []. }
  apply list_elem_of_In, in_flat_map in Hk as (c & Hc & Hk).
  apply list_elem_of_In in Hc, Hk.
  apply main_problem_constraints in Hc as [(s & Hs & ->) | [-> | ->]]; simpl in Hk.
  - apply elem_of_cons in Hk as [Hk|Hk]; [discriminate|].
    apply terms_of_nonzero in Hk as (l & Hl & Hv & Hnz). injection Hv as ->.
    exists l. split; [assumption|]. split; [reflexivity|]. right. right. eauto.
  - apply terms_of_nonzero in Hk as (l & Hl & Hv & Hnz). injection Hv as ->.
    exists l. split; [assumption|]. split; [reflexivity|]. left. assumption.
  - apply terms_of_nonzero in Hk as (l & Hl & Hv & Hnz). injection Hv as ->.
    exists l. split; [assumption|]. split; [reflexivity|]. right. left. assumption.
Qed.

Lemma returns_of_augment_zero pen i s :
  returns (pen (confidence i)) → s ∈ scenarios →
  (R_best i == 0)%Q → (R_med i == 0)%Q → (R_worst i == 0)%Q →
  (returns_of s (augment pen i) == 0)%Q.
Proof.
  intros [g Hg] Hs Hb Hm Hw. unfold augment. rewrite Hg. unfold scenarios in Hs.
  apply elem_of_cons in Hs as [->|Hs].
  { change (returns_of "best" (augmented g i)) with (blend g (R_best i) (R_worst i)).
    unfold blend. rewrite Hb, Hw. ring. }
  apply elem_of_cons in Hs as [->|Hs].
  { change (returns_of "med" (augmented g i)) with (blend g (R_med i) (R_worst i)).
    unfold blend. rewrite Hm, Hw. ring. }
  apply elem_of_cons in Hs as [->|Hs].
  { change (returns_of "worst" (augmented g i)) with (blend g (R_worst i) (R_worst i)).
    unfold blend. rewrite Hw. ring. }
  apply elem_of_nil in Hs as [].
Qed.

(** X17: a run never returns a result with status Optimal when an eligible
    initiative costs nothing and has all three raw returns equal to zero (as
    has every eligible initiative sharing its id): its variable occurs in no
    constraint, so the back end assigns it no value. *)
Theorem zero_initiative_never_optimal (cbc : solver) (data : list loc)
    (B thr floor : Q) (pen : Q → outcome Q) (w w' : world) (r : Result) (l : loc) :
  l ∈ data →
  (thr <= confidence (objects w l))%Q →
  (∀ l', l' ∈ data → (thr <= confidence (objects w l'))%Q →
         ini_id (objects w l') = ini_id (objects w l) →
         (cost (objects w l') == 0)%Q ∧ (R_best (objects w l') == 0)%Q
         ∧ (R_med (objects w l') == 0)%Q ∧ (R_worst (objects w l') == 0)%Q) →
  solve_minimax_regret_optimization cbc data B thr floor pen w = (Return r, w') →
  status r ≠ "Optimal".
Proof.
  intros Hl Hthr Hzero H Hst. apply solve_exit in H.
  destruct H as [_ -> _ | w1 V _ _ _ -> | w1 w2 V prob msg _ _ _ _ _ _ ->
                | w1 w2 V prob st vals acc regrets Hcer Hcosr Hany Hprob Hreply
                    -> Hacc ->]; try discriminate.
  simpl in Hst. apply LpStatus_optimal in Hst. subst st.
  rewrite bool_decide_eq_true_2 in Hacc by reflexivity.
  destruct Hacc as [Hsel _].
  apply select_loop_inv in Hsel as (_ & Hsome & _). simpl in Hsome.
  pose proof (stages_objects _ _ _ _ _ _ _ _ _ Hcer Hcosr) as Hobj.
  assert (Hin : l ∈ eligible thr (objects w) data) by (apply elem_of_eligible; auto).
  destruct (Hsome l Hin) as [v Hv]. unfold varValue_of in Hv.
  case_decide as Hvar; [|discriminate]. rewrite Hprob in Hvar.
  apply select_in_main_problem in Hvar as (l' & Hl' & Hid & Hnz).
  pose proof Hl' as Hl''. apply elem_of_eligible in Hl'' as [Hd' Ht'].
  rewrite !Hobj, !decide_True in Hid by assumption.
  rewrite !augment_ini_id in Hid.
  destruct (Hzero l' Hd' Ht' Hid) as (Hc & Hb & Hm & Hw).
  rewrite Hobj, decide_True in Hnz by assumption.
  rewrite augment_cost, augment_R_worst in Hnz.
  destruct Hnz as [Hnz|[Hnz|(s & Hs & Hnz)]]; [contradiction..|].
  apply Hnz. apply returns_of_augment_zero; try assumption.
  apply calculate_effective_returns_inv in Hcer as [_ Hloop].
  apply (for_each_process_inv _ _ _ _ Hloop). assumption.
Qed.

Lemma example_degenerate_stopped_returns :
  example_degenerate_stopped
  = (Return (the_result example_degenerate_stopped), example_degenerate_stopped.2).
Proof. apply run_eta. vm_compute. reflexivity. Qed.

Lemma zero_initiative_never_optimal_witness :
  status (the_result example_degenerate_stopped) = "Not Solved"
  ∧ status (the_result example_degenerate_stopped) ≠ "Optimal".
Proof.
  split; [vm_compute; reflexivity|].
  apply (zero_initiative_never_optimal cbc_stopped [0; 3]%nat 15 (3 # 10) 40
           calculate_gamma example_world example_degenerate_stopped.2
           (the_result example_degenerate_stopped) 3%nat).
  - right. left.
  - simpl. discriminate.
  - intros l' Hl' _ Hid.
    apply elem_of_cons in Hl' as [->|Hl']; [discriminate|].
    apply elem_of_cons in Hl' as [->|Hl']; [repeat split; reflexivity|].
    apply elem_of_nil in Hl' as [].
  - exact example_degenerate_stopped_returns.
Defined.

(** ** An objective without a term *)

Lemma terms_of_zero h c ls :
  (∀ l, l ∈ ls → (c (h l) == 0)%Q) → terms_of h c ls = [].
Proof.
  intros H. unfold terms_of. induction ls as [|l ls IH]; [reflexivity|].
  simpl. rewrite IH by (intros; apply H; right; assumption).
  unfold times. assert (E : Qeq_bool (c (h l)) 0 = true)
    by (apply Qeq_bool_iff, H; left).
  rewrite E. reflexivity.
Qed.

Lemma scenario_loop_empty_objective cbc ls B s rest : ∀ done V w,
  (∀ l s', l ∈ ls → s' ∈ done ++ [s] →
           returns (effective_return s' (objects w l))) →
  (∀ s', s' ∈ done → objective (scenario_problem_of (objects w) ls B s') ≠ []) →
  objective (scenario_problem_of (objects w) ls B s) = [] →
  (∀ hist, ∃ vals, cbc hist (scenario_problem_of (objects w) ls B s)
                   = SolverDone LpStatusOptimal vals) →
  ∃ w', scenario_loop cbc ls B (done ++ s :: rest) V w
        = (Raise (TypeError "unsupported format string passed to NoneType.__format__"),
           w')
        ∧ objects w' = objects w
        ∧ solver_calls w' =
            solver_calls w ++ map (scenario_problem_of (objects w) ls B) (done ++ [s]).
Proof.
  induction done as [|s0 done IH]; intros V w Hret Hne Hempty Hcbc.
  - simpl app. rewrite scenario_turn
      by (intros; apply Hret; [assumption|left]).
    destruct (Hcbc (solver_calls w)) as [vals ->].
    unfold scenario_entry. rewrite bool_decide_eq_true_2 by reflexivity.
    rewrite Hempty. eexists. split; [reflexivity|]. split; reflexivity.
  - change ((s0 :: done) ++ s :: rest) with (s0 :: (done ++ s :: rest)).
    rewrite scenario_step
      by (first [apply Hne; left | intros; apply Hret; [assumption|left]]).
    set (p := scenario_problem_of (objects w) ls B s0).
    destruct (IH (<[s0 := scenario_value p (cbc (solver_calls w) p)]> V) (logged p w))
      as (w' & Hrun & Hobj & Hcalls).
    { intros l s' Hl Hs'. apply Hret; [assumption|right; assumption]. }
    { intros s' Hs'. apply Hne. right. assumption. }
    { exact Hempty. }
    { exact Hcbc. }
    exists w'. split; [exact Hrun|]. split; [exact Hobj|].
    rewrite Hcalls. simpl. rewrite <- app_assoc. reflexivity.
Qed.

(** X18: when every stored effective return of one scenario is 0, the
    objective of that scenario has no term; if the earlier scenarios each
    have a term and the back end reports Optimal,
    [calculate_optimal_scenario_returns] raises [TypeError] while it formats
    the value of the objective, which is [None]: the problems up to that
    scenario have been submitted and the initiatives are as they were. *)
Theorem empty_objective_raises (cbc : solver) (ls : list loc) (B : Q) (w : world)
    (done : list string) (s : string) (rest : list string) :
  ["best"; "med"; "worst"] = done ++ s :: rest →
  (∀ l s', l ∈ ls → s' ∈ done →
     ∃ er, effective_returns (objects w l) = Some er ∧ is_Some (er !! s')) →
  (∀ s', s' ∈ done →
     ∃ l er q, l ∈ ls ∧ effective_returns (objects w l) = Some er
               ∧ er !! s' = Some q ∧ ¬ (q == 0)%Q) →
  (∀ l, l ∈ ls →
     ∃ er q, effective_returns (objects w l) = Some er
             ∧ er !! s = Some q ∧ (q == 0)%Q) →
  (∀ hist, ∃ vals, cbc hist (scenario_problem_of (objects w) ls B s)
                   = SolverDone LpStatusOptimal vals) →
  ∃ w', calculate_optimal_scenario_returns cbc ls B w
        = (Raise (TypeError "unsupported format string passed to NoneType.__format__"),
           w')
        ∧ objects w' = objects w
        ∧ solver_calls w' =
            solver_calls w ++ map (scenario_problem_of (objects w) ls B) (done ++ [s]).
Proof.
  intros Hsplit Hstored Hnz Hzero Hcbc.
  unfold calculate_optimal_scenario_returns, scenarios. rewrite Hsplit.
  apply scenario_loop_empty_objective; [| | |exact Hcbc].
  - intros l s' Hl Hs'. apply stored_effective_return.
    apply elem_of_app in Hs' as [Hs'|Hs']; [apply Hstored; assumption|].
    apply elem_of_cons in Hs' as [->|Hs']; [|apply elem_of_nil in Hs' as []].
    destruct (Hzero l Hl) as (er & q & Her & Hq & _).
    exists er. split; [assumption|]. rewrite Hq. eexists; reflexivity.
  - intros s' Hs'. apply objective_nonempty, Hnz. assumption.
  - change (objective (scenario_problem_of (objects w) ls B s))
      with (terms_of (objects w) (returns_of s) ls).
    apply terms_of_zero. intros l Hl.
    destruct (Hzero l Hl) as (er & q & Her & Hq & H0).
    rewrite (stored_returns_of s (objects w l) er q Her Hq). exact H0.
Qed.

Lemma empty_objective_raises_witness :
  ∃ w', calculate_optimal_scenario_returns cbc_picks_none [0]%nat 15 flat_world
        = (Raise (TypeError "unsupported format string passed to NoneType.__format__"),
           w')
        ∧ objects w' = objects flat_world
        ∧ solver_calls w' =
            solver_calls flat_world
            ++ map (scenario_problem_of (objects flat_world) [0]%nat 15)
                 (["best"; "med"] ++ ["worst"]).
Proof.
  apply (empty_objective_raises cbc_picks_none [0]%nat 15 flat_world
           ["best"; "med"] "worst" []).
  - reflexivity.
  - intros l s' Hl Hs'.
    apply elem_of_cons in Hl as [->|Hl]; [|apply elem_of_nil in Hl as []].
    repeat (apply elem_of_cons in Hs' as [->|Hs'];
            [eexists; split; [vm_compute; reflexivity|];
             vm_compute; eexists; reflexivity|]).
    apply elem_of_nil in Hs' as [].
  - intros s' Hs'. exists 0%nat.
    repeat (apply elem_of_cons in Hs' as [->|Hs'];
            [eexists _, _; split; [left|];
             split; [vm_compute; reflexivity|];
             split; [vm_compute; reflexivity|discriminate]|]).
    apply elem_of_nil in Hs' as [].
  - intros l Hl.
    apply elem_of_cons in Hl as [->|Hl]; [|apply elem_of_nil in Hl as []].
    eexists _, _. split; [vm_compute; reflexivity|].
    split; [vm_compute; reflexivity|reflexivity].
  - intros hist. eexists. reflexivity.
Defined.
